(** * tui-image-editor: the command / invoker core

    A shallow embedding of the undo/redo machinery of the editor:
    - [consts.rejectMessages] (src/js/consts.js);
    - the part of [Graphics] (src/js/graphics.js) that the commands use:
      the canvas object list, the id registry [_objects], the background
      image, and the listeners Graphics attaches to the canvas;
    - the [Command] class (src/js/interface/command.js);
    - the command modules removeObject, clearObjects, setObjectProperties,
      addImageObject and the command factory's addObject, loadImage, clear
      and remove creators;
    - the [Invoker] class (src/js/invoker.js, the version with [execute]).

    Conventions.  A fabric object is a JavaScript object with identity; the
    editor stamps every object it handles with a unique number
    (tui-code-snippet [stamp]) and uses that number as the object id.  The
    model identifies an object with its stamp: [ObjId].  The mutable fields of
    the objects live in [heap]; every other structure holds references. *)

From stdpp Require Import base option list gmap sets strings.
From Stdlib Require Import ZArith.

Open Scope string_scope.
Open Scope list_scope.

Set Warnings "-clear-no-such-hyp".

Abbreviation ObjId := nat.

(** ** consts.rejectMessages *)
Module rejectMessages.
Definition isLock : string := "The executing command state is locked.".
Definition undo : string := "The promise of undo command is reject.".
Definition redo : string := "The promise of redo command is reject.".
Definition noObject : string := "The object is not in canvas.".
Definition addedObject : string := "The object is already added.".
End rejectMessages.

(** ** JavaScript values that travel through the command layer *)

Inductive PropValue :=
| PUndefined
| PStr (s : string)
| PNum (z : Z)
| PBool (b : bool).

(** A fabric.Image as far as the loader looks at it: its source and whether
    [getElement()] is truthy once the canvas has tried to load it. *)
Record FImage := mkFImage { img_src : string; img_element : bool }.

Inductive Value :=
| VUndefined
| VStr (s : string)
| VNum (n : nat)
| VObj (o : ObjId)
| VList (os : list ObjId)
| VProps (m : gmap string PropValue)
| VImage (i : option FImage).

(** How the promise returned by an action settles.  [Unsettled] stands for an
    action that gives the invoker nothing to wait for: it threw instead of
    returning a promise, or the promise it returned never settles. *)
Inductive Outcome :=
| Resolved (v : Value)
| Rejected (reason : Value)
| Unsettled.

#[global] Instance PropValue_eq_dec : EqDecision PropValue.
Proof. solve_decision. Defined.
#[global] Instance FImage_eq_dec : EqDecision FImage.
Proof. solve_decision. Defined.

(** ** Fabric objects and the Graphics instance *)

Record FabricObject := mkFabricObject {
  otype : string;                      (* obj.type *)
  group_objects : list ObjId;          (* fabric.Group: the members *)
  oprops : gmap string PropValue       (* the remaining own properties *)
}.

Record Graphics := mkGraphics {
  heap : gmap ObjId FabricObject;      (* the objects, by identity *)
  canvas_objects : list ObjId;         (* this._canvas.getObjects() *)
  activeObject : option ObjId;         (* canvas selection *)
  activeGroup : option ObjId;
  backgroundImage : option FImage;     (* this._canvas.backgroundImage *)
  _objects : gset ObjId;               (* this._objects, keyed by stamp *)
  imageName : string;                  (* this.imageName *)
  canvasImage : option FImage;         (* this.canvasImage *)
  lastId : nat                         (* the counter behind stamp() *)
}.

Module Fabric.

Definition set_canvas_objects (l : list ObjId) (g : Graphics) : Graphics :=
  mkGraphics (heap g) l (activeObject g) (activeGroup g) (backgroundImage g)
             (_objects g) (imageName g) (canvasImage g) (lastId g).

Definition set_activeObject (a : option ObjId) (g : Graphics) : Graphics :=
  mkGraphics (heap g) (canvas_objects g) a (activeGroup g) (backgroundImage g)
             (_objects g) (imageName g) (canvasImage g) (lastId g).

Definition set_activeGroup (a : option ObjId) (g : Graphics) : Graphics :=
  mkGraphics (heap g) (canvas_objects g) (activeObject g) a (backgroundImage g)
             (_objects g) (imageName g) (canvasImage g) (lastId g).

Definition set_backgroundImage (i : option FImage) (g : Graphics) : Graphics :=
  mkGraphics (heap g) (canvas_objects g) (activeObject g) (activeGroup g) i
             (_objects g) (imageName g) (canvasImage g) (lastId g).

Definition set_objects (s : gset ObjId) (g : Graphics) : Graphics :=
  mkGraphics (heap g) (canvas_objects g) (activeObject g) (activeGroup g)
             (backgroundImage g) s (imageName g) (canvasImage g) (lastId g).

Definition set_heap (h : gmap ObjId FabricObject) (g : Graphics) : Graphics :=
  mkGraphics h (canvas_objects g) (activeObject g) (activeGroup g)
             (backgroundImage g) (_objects g) (imageName g) (canvasImage g)
             (lastId g).

(** [obj.isType(t)]; an id without an object is never of any type. *)
Definition isType (g : Graphics) (o : ObjId) (t : string) : bool :=
  match heap g !! o with
  | Some ob => bool_decide (otype ob = t)
  | None => false
  end.

(** [group.isEmpty()] and [group.getObjects()]. *)
Definition getGroupObjects (g : Graphics) (o : ObjId) : list ObjId :=
  match heap g !! o with
  | Some ob => group_objects ob
  | None => []
  end.

Definition isEmpty (g : Graphics) (o : ObjId) : bool :=
  bool_decide (getGroupObjects g o = []).

(** Array.prototype.indexOf / splice: drop the first occurrence. *)
Fixpoint remove_first (o : ObjId) (l : list ObjId) : list ObjId :=
  match l with
  | [] => []
  | x :: r => if decide (x = o) then r else x :: remove_first o r
  end.

(** Graphics._addFabricObject / _removeFabricObject. *)
Definition _addFabricObject (o : ObjId) (g : Graphics) : Graphics :=
  set_objects ({[o]} ∪ _objects g) g.

Definition _removeFabricObject (id : ObjId) (g : Graphics) : Graphics :=
  set_objects (_objects g ∖ {[id]}) g.

(** Graphics._onObjectAdded / _onObjectRemoved, the listeners of
    'object:added' and 'object:removed'. *)
Definition _onObjectAdded (o : ObjId) (g : Graphics) : Graphics :=
  if isType g o "cropzone" then g else _addFabricObject o g.

Definition _onObjectRemoved (o : ObjId) (g : Graphics) : Graphics :=
  _removeFabricObject o g.

(** [canvas.contains(obj)]. *)
Definition contains (g : Graphics) (o : ObjId) : bool :=
  bool_decide (o ∈ canvas_objects g).

(** [canvas.add(obj)]: push, then fire 'object:added'. *)
Definition add1 (g : Graphics) (o : ObjId) : Graphics :=
  _onObjectAdded o (set_canvas_objects (canvas_objects g ++ [o]) g).

Definition add (os : list ObjId) (g : Graphics) : Graphics :=
  foldl add1 g os.

(** [canvas.remove(obj)] (and [obj.remove()]): nothing happens when the
    object is not on the canvas; otherwise it is spliced out, the selection
    is dropped when it was the active object, and 'object:removed' fires. *)
Definition remove1 (g : Graphics) (o : ObjId) : Graphics :=
  if contains g o then
    let g1 := set_canvas_objects (remove_first o (canvas_objects g)) g in
    let g2 := if decide (activeObject g1 = Some o)
              then set_activeObject None g1 else g1 in
    _onObjectRemoved o g2
  else g.

Definition remove (os : list ObjId) (g : Graphics) : Graphics :=
  foldl remove1 g os.

(** [canvas.clear()]: empties the object array without firing
    'object:removed', and discards the selection. *)
Definition clear (g : Graphics) : Graphics :=
  set_activeGroup None (set_activeObject None (set_canvas_objects [] g)).

Definition discardActiveGroup (g : Graphics) : Graphics :=
  set_activeGroup None g.

End Fabric.

(** ** Graphics: the methods the commands call *)
Module Graphics.

(** [add(objects)]: an array is spread, a single object is wrapped. *)
Definition add (objects : list ObjId) (g : Graphics) : Graphics :=
  Fabric.add objects g.

Definition contains (g : Graphics) (target : ObjId) : bool :=
  Fabric.contains g target.

(** [getObjects()]: a shallow copy of the canvas array. *)
Definition getObjects (g : Graphics) : list ObjId := canvas_objects g.

(** [getObject(id)]: [this._objects[id]], undefined for an unknown id. *)
Definition getObject (g : Graphics) (id : Value) : option ObjId :=
  match id with
  | VNum n => if decide (n ∈ _objects g) then Some n else None
  | _ => None
  end.

Definition remove (target : ObjId) (g : Graphics) : Graphics :=
  Fabric.remove1 g target.

(** [removeAll(includesBackground)]. *)
Definition removeAll (includesBackground : bool) (g : Graphics)
  : list ObjId * Graphics :=
  let objects := canvas_objects g in
  let g1 := Fabric.remove (canvas_objects g) g in
  let g2 := if includesBackground then Fabric.clear g1 else g1 in
  (objects, g2).

(** [removeObjectById(id)]: the removed objects and the new state. *)
Definition removeObjectById (id : Value) (g : Graphics)
  : list ObjId * Graphics :=
  match getObject g id with
  | Some target =>
      if Fabric.isType g target "group" && negb (Fabric.isEmpty g target) then
        let g1 := Fabric.discardActiveGroup g in
        let members := Fabric.getGroupObjects g target in
        (members, Fabric.remove members g1)
      else if Fabric.contains g target then
        ([target], Fabric.remove1 g target)
      else ([], g)
  | None => ([], g)
  end.

(** [setCanvasImage(name, canvasImage)]. *)
Definition setCanvasImage (name : string) (image : option FImage)
  (g : Graphics) : Graphics :=
  mkGraphics (heap g) (canvas_objects g) (activeObject g) (activeGroup g)
             (backgroundImage g) (_objects g) name image (lastId g).

(** [object.set(props)]: the listed keys are overwritten in place. *)
Definition set_props (props : gmap string PropValue) (ob : FabricObject)
  : FabricObject :=
  mkFabricObject (otype ob) (group_objects ob) (props ∪ oprops ob).

(** [setObjectProperties(id, props)], once [getObject(id)] has given
    [object]. *)
Definition setObjectProperties (object : ObjId)
  (props : gmap string PropValue) (g : Graphics) : Graphics :=
  Fabric.set_heap (alter (set_props props) object (heap g)) g.

(** [object[key]]. *)
Definition get_prop (g : Graphics) (object : ObjId) (key : string)
  : PropValue :=
  match heap g !! object with
  | Some ob => default PUndefined (oprops ob !! key)
  | None => PUndefined
  end.

(** consts.fObjectOptions.SELECTION_STYLE *)
Definition SELECTION_STYLE : gmap string PropValue :=
  list_to_map [("borderColor", PStr "red"); ("cornerColor", PStr "green");
               ("cornerSize", PNum 10); ("originX", PStr "center");
               ("originY", PStr "center"); ("transparentCorners", PBool false)].

(** [createObjectProperties(obj)], for an object that is not a text. *)
Definition createObjectProperties (g : Graphics) (o : ObjId)
  : gmap string PropValue :=
  let predefinedKeys := ["left"; "top"; "width"; "height"; "fill"; "stroke";
                         "strokeWidth"; "opacity"] in
  let base : gmap string PropValue :=
    {[ "id" := PNum (Z.of_nat o);
       "type" := match heap g !! o with
                 | Some ob => PStr (otype ob) | None => PUndefined end ]} in
  foldl (λ props key, <[key := get_prop g o key]> props) base predefinedKeys.

(** [addImageObject(imgUrl)] with [_callbackAfterLoadingImageObject]:
    [fabric.Image.fromURL] builds a new image object, the callback styles
    it, puts it on the canvas and selects it.  The new object gets the next
    stamp.  The position the callback computes from the centre of the
    canvas image is left out of [oprops]; without a canvas image the
    callback throws and the promise never settles ([None]). *)
Definition addImageObject (imgUrl : string) (g : Graphics)
  : option (gmap string PropValue * Graphics) :=
  match canvasImage g with
  | None => None
  | Some _ =>
      let id := S (lastId g) in
      let image := mkFabricObject "image" []
                     (<["crossOrigin" := PStr "Anonymous"]>
                        (<["src" := PStr imgUrl]> SELECTION_STYLE)) in
      let g1 := mkGraphics (<[id := image]> (heap g)) (canvas_objects g)
                  (activeObject g) (activeGroup g) (backgroundImage g)
                  (_objects g) (imageName g) (canvasImage g) id in
      let g2 := Fabric.set_activeObject (Some id) (Fabric.add1 g1 id) in
      Some (createObjectProperties g2 id, g2)
  end.

End Graphics.

(** ** The Command class (interface/command.js) *)

Abbreviation UndoData := (gmap string Value).

(** What running [execute] or [undo] of a command leaves behind: the mutated
    Graphics, the command's own [undoData] bag, and how the returned promise
    settles. *)
Record ActionResult := mkResult {
  res_graphics : Graphics;
  res_undoData : UndoData;
  res_outcome : Outcome
}.

(** [execute(graphics, ...args)] / [undo(graphics, ...args)] with [this]
    bound to the command: the arguments after [graphics], the bag, the
    Graphics instance. *)
Definition Action : Type := list Value → UndoData → Graphics → ActionResult.

(** A callback is known by a label; calling it is recorded in the event log
    of the invoker. *)
Record Actions := mkActions {
  a_name : string;
  a_execute : Action;
  a_undo : Action;
  a_executeCallback : option string;
  a_undoCallback : option string
}.

Record Command := mkCommand {
  name : string;
  args : list Value;
  execute : Action;
  undo : Action;
  executeCallback : option string;
  undoCallback : option string;
  undoData : UndoData
}.

(** [new Command(actions, args)]. *)
Definition newCommand (actions : Actions) (args : list Value) : Command :=
  mkCommand (a_name actions) args (a_execute actions) (a_undo actions)
            (a_executeCallback actions) (a_undoCallback actions) ∅.

Definition set_undoData (d : UndoData) (c : Command) : Command :=
  mkCommand (name c) (args c) (execute c) (undo c)
            (executeCallback c) (undoCallback c) d.

(** The n-th positional argument; a missing one is [undefined]. *)
Definition arg (n : nat) (args : list Value) : Value :=
  default VUndefined (args !! n).

(** Reading a value at the type the code expects of it. *)
Definition props_of (v : Value) : gmap string PropValue :=
  match v with VProps m => m | _ => ∅ end.

Definition str_of (v : Value) : string :=
  match v with VStr s => s | _ => "" end.

Definition image_of (v : Value) : option FImage :=
  match v with VImage i => i | _ => None end.

Definition list_of (v : Value) : list ObjId :=
  match v with VList l => l | _ => [] end.

(** ** Command modules (src/js/command/) *)
Module command.

(** removeObject.js *)
Definition removeObject_execute : Action := λ args ud g,
  let id := arg 0 args in
  let '(objects, g') := Graphics.removeObjectById id g in
  let ud' := <["objects" := VList objects]> ud in
  if bool_decide (length objects = 0)
  then mkResult g' ud' (Rejected (VStr rejectMessages.noObject))
  else mkResult g' ud' (Resolved VUndefined).

Definition removeObject_undo : Action := λ args ud g,
  match ud !! "objects" with
  | Some (VList objects) =>
      mkResult (Graphics.add objects g) ud (Resolved VUndefined)
  | _ => mkResult g ud Unsettled
  end.

Definition removeObject : Actions :=
  mkActions "removeObject" removeObject_execute removeObject_undo None None.

(** clearObjects.js *)
Definition clearObjects_execute : Action := λ args ud g,
  let '(objects, g') := Graphics.removeAll false g in
  mkResult g' (<["objects" := VList objects]> ud) (Resolved VUndefined).

Definition clearObjects_undo : Action := λ args ud g,
  match ud !! "objects" with
  | Some (VList objects) =>
      mkResult (Graphics.add objects g) ud (Resolved VUndefined)
  | _ => mkResult g ud Unsettled
  end.

Definition clearObjects : Actions :=
  mkActions "clearObjects" clearObjects_execute clearObjects_undo None None.

(** setObjectProperties.js *)
Definition setObjectProperties_execute : Action := λ args ud g,
  let id := arg 0 args in
  let props := props_of (arg 1 args) in
  match Graphics.getObject g id with
  | None => mkResult g ud (Rejected (VStr rejectMessages.noObject))
  | Some targetObj =>
      let saved :=
        map_imap (λ key _, Some (Graphics.get_prop g targetObj key)) props in
      mkResult (Graphics.setObjectProperties targetObj props g)
               (<["props" := VProps saved]> ud) (Resolved VUndefined)
  end.

Definition setObjectProperties_undo : Action := λ args ud g,
  let id := arg 0 args in
  match Graphics.getObject g id with
  | None => mkResult g ud Unsettled
  | Some object =>
      mkResult (Graphics.setObjectProperties object
                  (props_of (default VUndefined (ud !! "props"))) g)
               ud (Resolved VUndefined)
  end.

Definition setObjectProperties : Actions :=
  mkActions "setObjectProperties" setObjectProperties_execute
            setObjectProperties_undo None None.

(** addImageObject.js *)
Definition addImageObject_execute : Action := λ args ud g,
  match Graphics.addImageObject (str_of (arg 0 args)) g with
  | None => mkResult g ud Unsettled
  | Some (objectProps, g') =>
      let object :=
        match objectProps !! "id" with
        | Some (PNum z) =>
            match Graphics.getObject g' (VNum (Z.to_nat z)) with
            | Some o => VObj o | None => VUndefined end
        | _ => VUndefined
        end in
      mkResult g' (<["object" := object]> ud) (Resolved (VProps objectProps))
  end.

Definition addImageObject_undo : Action := λ args ud g,
  match ud !! "object" with
  | Some (VObj o) => mkResult (Graphics.remove o g) ud (Resolved VUndefined)
  | _ => mkResult g ud (Resolved VUndefined)
  end.

Definition addImageObject : Actions :=
  mkActions "addImageObject" addImageObject_execute addImageObject_undo
            None None.

End command.

(** ** ImageLoader (component/imageLoader.js) *)
Module ImageLoader.

(** [_setBackgroundImage(img)]: rejects at once without an image;
    otherwise the canvas takes the image as its background and the promise
    settles by whether the image element could be loaded. *)
Definition _setBackgroundImage (img : option FImage) (g : Graphics)
  : Graphics * option FImage :=
  match img with
  | None => (g, None)
  | Some oImage =>
      let g1 := Fabric.set_backgroundImage (Some oImage) g in
      if img_element oImage then (g1, Some oImage) else (g1, None)
  end.

(** [load(imageName, img)]; the second component is the settlement. *)
Definition load (name : string) (img : option FImage) (g : Graphics)
  : Graphics * Outcome :=
  if bool_decide (name = "") && bool_decide (img = None) then
    (Graphics.setCanvasImage "" None (Fabric.set_backgroundImage None g),
     Resolved VUndefined)
  else
    match _setBackgroundImage img g with
    | (g1, Some oImage) =>
        (Graphics.setCanvasImage name (Some oImage) g1,
         Resolved (VImage (Some oImage)))
    | (g1, None) => (g1, Rejected VUndefined)
    end.

End ImageLoader.

(** ** The command factory (factory/command.js)

    These commands are built by closures over the creator's arguments; they
    take no positional arguments, have no name, and keep what they need for
    undo in [this.store], which the model files in the bag. *)
Module factory.

(** createAddObjectCommand(object) *)
Definition createAddObjectCommand (object : ObjId) : Command :=
  newCommand
    (mkActions ""
       (λ _ ud g,
          if negb (Fabric.contains g object)
          then mkResult (Fabric.add1 g object) ud (Resolved (VObj object))
          else mkResult g ud (Rejected VUndefined))
       (λ _ ud g,
          if Fabric.contains g object
          then mkResult (Fabric.remove1 g object) ud (Resolved (VObj object))
          else mkResult g ud (Rejected VUndefined))
       None None) [].

(** createLoadImageCommand(imageName, img); the three fields of
    [this.store] are the bag entries prevName, prevImage and objects. *)
Definition createLoadImageCommand (name : string) (img : option FImage)
  : Command :=
  newCommand
    (mkActions ""
       (λ _ ud g,
          let store : UndoData :=
            <["prevName" := VStr (imageName g)]>
              (<["prevImage" := VImage (canvasImage g)]>
                 (<["objects" := VList (canvas_objects g)]> ud)) in
          let '(g', out) := ImageLoader.load name img (Fabric.clear g) in
          mkResult g' store out)
       (λ _ ud g,
          let g1 := Fabric.add (list_of (default VUndefined (ud !! "objects")))
                               (Fabric.clear g) in
          let '(g', out) :=
            ImageLoader.load (str_of (default VUndefined (ud !! "prevName")))
                             (image_of (default VUndefined (ud !! "prevImage")))
                             g1 in
          mkResult g' ud out)
       None None) [].

(** createClearCommand(); [this.store] is the bag entry store. *)
Definition createClearCommand : Command :=
  newCommand
    (mkActions ""
       (λ _ ud g,
          let objs := canvas_objects g in
          let ud' := <["store" := VList objs]> ud in
          if negb (bool_decide (length objs = 0))
          then mkResult (Fabric.remove objs g) ud' (Resolved VUndefined)
          else mkResult g ud' (Rejected VUndefined))
       (λ _ ud g,
          mkResult (Fabric.add (list_of (default VUndefined (ud !! "store"))) g)
                   ud (Resolved VUndefined))
       None None) [].

(** createRemoveCommand(target) *)
Definition createRemoveCommand (target : option ObjId) : Command :=
  newCommand
    (mkActions ""
       (λ _ ud g,
          match target with
          | Some t =>
              if Fabric.isType g t "group" && negb (Fabric.isEmpty g t) then
                let g1 := Fabric.discardActiveGroup g in
                let store := Fabric.getGroupObjects g t in
                mkResult (Fabric.remove store g1)
                         (<["store" := VList store]> ud) (Resolved VUndefined)
              else if Fabric.contains g t then
                mkResult (Fabric.remove1 g t)
                         (<["store" := VList [t]]> ud) (Resolved VUndefined)
              else mkResult g ud (Rejected VUndefined)
          | None => mkResult g ud (Rejected VUndefined)
          end)
       (λ _ ud g,
          mkResult (Fabric.add (list_of (default VUndefined (ud !! "store"))) g)
                   ud (Resolved VUndefined))
       None None) [].

End factory.

(** ** The Invoker (invoker.js)

    The invoker object, together with what its methods act on: the Graphics
    instance every command receives as its first argument, and the log of
    the events fired and callbacks called so far. *)

Inductive Event :=
| UNDO_STACK_CHANGED (length : nat)
| REDO_STACK_CHANGED (length : nat)
| CALLBACK (label : string) (value : Value)
(* the events of the older revision of the invoker *)
| PUSH_UNDO_STACK
| EMPTY_REDO_STACK.

Record World := mkWorld {
  _undoStack : list Command;
  _redoStack : list Command;
  _isLocked : bool;
  _graphics : Graphics;
  fired : list Event
}.

(** A promise the invoker has handed out and that has not settled yet: the
    command (with the bag as the action left it), how the action's own
    promise is going to settle, and the reactions chained on it. *)
Inductive Chain :=
| invokeExecution        (* the then/catch of _invokeExecution *)
| invokeExecutionClear   (* the same, then execute's clearRedoStack *)
| invokeUndo.            (* the then/catch of _invokeUndo *)

Record Pending := mkPending {
  p_chain : Chain;
  p_command : Command;
  p_outcome : Outcome
}.

(** What a call of execute, undo or redo returns. *)
Inductive Returned :=
| Settled (o : Outcome)
| Awaiting (p : Pending).

Module Invoker.

(** [new Invoker()] *)
Definition new (g : Graphics) : World := mkWorld [] [] false g [].

Definition set_undoStack (l : list Command) (w : World) : World :=
  mkWorld l (_redoStack w) (_isLocked w) (_graphics w) (fired w).

Definition set_redoStack (l : list Command) (w : World) : World :=
  mkWorld (_undoStack w) l (_isLocked w) (_graphics w) (fired w).

Definition set_isLocked (b : bool) (w : World) : World :=
  mkWorld (_undoStack w) (_redoStack w) b (_graphics w) (fired w).

Definition set_graphics (g : Graphics) (w : World) : World :=
  mkWorld (_undoStack w) (_redoStack w) (_isLocked w) g (fired w).

Definition fire (e : Event) (w : World) : World :=
  mkWorld (_undoStack w) (_redoStack w) (_isLocked w) (_graphics w)
          (fired w ++ [e]).

(** Array.prototype.pop: the last element, if any, and the rest. *)
Definition pop (l : list Command) : option Command * list Command :=
  (last l, removelast l).

Definition _fireRedoStackChanged (w : World) : World :=
  fire (REDO_STACK_CHANGED (length (_redoStack w))) w.

Definition _fireUndoStackChanged (w : World) : World :=
  fire (UNDO_STACK_CHANGED (length (_undoStack w))) w.

Definition lock (w : World) : World := set_isLocked true w.

Definition unlock (w : World) : World := set_isLocked false w.

Definition pushUndoStack (command : Command) (isSilent : bool) (w : World)
  : World :=
  let w1 := set_undoStack (_undoStack w ++ [command]) w in
  if negb isSilent then _fireUndoStackChanged w1 else w1.

Definition pushRedoStack (command : Command) (isSilent : bool) (w : World)
  : World :=
  let w1 := set_redoStack (_redoStack w ++ [command]) w in
  if negb isSilent then _fireRedoStackChanged w1 else w1.

Definition isEmptyRedoStack (w : World) : bool :=
  bool_decide (length (_redoStack w) = 0).

Definition isEmptyUndoStack (w : World) : bool :=
  bool_decide (length (_undoStack w) = 0).

Definition clearUndoStack (w : World) : World :=
  if negb (isEmptyUndoStack w)
  then _fireUndoStackChanged (set_undoStack [] w)
  else w.

Definition clearRedoStack (w : World) : World :=
  if negb (isEmptyRedoStack w)
  then _fireRedoStackChanged (set_redoStack [] w)
  else w.

(** [isFunction(cb)] and then [cb(value)]. *)
Definition call (callback : option string) (value : Value) (w : World)
  : World :=
  match callback with
  | Some label => fire (CALLBACK label value) w
  | None => w
  end.

(** The synchronous part of [_invokeExecution] / [_invokeUndo]: lock, run
    the action on the command's arguments, and chain the reactions on the
    promise it returns. *)
Definition start (chain : Chain) (action : Action) (command : Command)
  (w : World) : Returned * World :=
  let w1 := lock w in
  let r := action (args command) (undoData command) (_graphics w1) in
  let command' := set_undoData (res_undoData r) command in
  let w2 := set_graphics (res_graphics r) w1 in
  match res_outcome r with
  | Unsettled => (Settled Unsettled, w2)
  | o => (Awaiting (mkPending chain command' o), w2)
  end.

Definition _invokeExecution (command : Command) (w : World)
  : Returned * World :=
  start invokeExecution (execute command) command w.

Definition _invokeUndo (command : Command) (w : World) : Returned * World :=
  start invokeUndo (undo command) command w.

(** The reactions of [_invokeExecution]: [.then(value => ...)] and
    [['catch'](message => ...)]. *)
Definition settle_invokeExecution (command : Command) (o : Outcome)
  (w : World) : Outcome * World :=
  match o with
  | Resolved value =>
      let w1 := pushUndoStack command false w in
      let w2 := unlock w1 in
      (Resolved value, call (executeCallback command) value w2)
  | Rejected message => (Rejected message, unlock w)
  | Unsettled => (Unsettled, w)
  end.

(** The reactions of [_invokeUndo]. *)
Definition settle_invokeUndo (command : Command) (o : Outcome) (w : World)
  : Outcome * World :=
  match o with
  | Resolved value =>
      let w1 := pushRedoStack command false w in
      let w2 := unlock w1 in
      (Resolved value, call (undoCallback command) value w2)
  | Rejected message => (Rejected message, unlock w)
  | Unsettled => (Unsettled, w)
  end.

(** The reactions [_invokeExecution] or [_invokeUndo] chained on the
    action's promise, run when that promise settles. *)
Definition settle (p : Pending) (w : World) : Outcome * World :=
  match p_chain p with
  | invokeExecution | invokeExecutionClear =>
      settle_invokeExecution (p_command p) (p_outcome p) w
  | invokeUndo => settle_invokeUndo (p_command p) (p_outcome p) w
  end.

(** The reaction [execute] chains behind [_invokeExecution]:
    [.then(value => { this.clearRedoStack(); return value; })].  It runs one
    tick after the reactions above, when the invoker is unlocked again. *)
Definition thenClearRedoStack (o : Outcome) (w : World) : Outcome * World :=
  match o with
  | Resolved value => (Resolved value, clearRedoStack w)
  | _ => (o, w)
  end.

(** What is left of a chain once [settle] has run. *)
Definition finish (chain : Chain) (r : Outcome * World) : Outcome * World :=
  match chain with
  | invokeExecutionClear => thenClearRedoStack r.1 r.2
  | _ => r
  end.

(** [execute(command)] *)
Definition execute (command : Command) (w : World) : Returned * World :=
  if _isLocked w then (Settled (Rejected (VStr rejectMessages.isLock)), w)
  else
    match _invokeExecution command w with
    | (Awaiting p, w') =>
        (Awaiting (mkPending invokeExecutionClear (p_command p) (p_outcome p)),
         w')
    | r => r
    end.

(** [undo()] *)
Definition undo (w : World) : Returned * World :=
  let '(command, rest) := pop (_undoStack w) in
  let w0 := set_undoStack rest w in
  let '(command, w1) :=
    match command with
    | Some c => if _isLocked w0 then (None, pushUndoStack c true w0)
                else (Some c, w0)
    | None => (None, w0)
    end in
  match command with
  | Some c =>
      let w2 := if isEmptyUndoStack w1 then _fireUndoStackChanged w1 else w1 in
      _invokeUndo c w2
  | None =>
      let message := rejectMessages.undo in
      let message := if _isLocked w1
                     then message +:+ " Because " +:+ rejectMessages.isLock
                     else message in
      (Settled (Rejected (VStr message)), w1)
  end.

(** [redo()] *)
Definition redo (w : World) : Returned * World :=
  let '(command, rest) := pop (_redoStack w) in
  let w0 := set_redoStack rest w in
  let '(command, w1) :=
    match command with
    | Some c => if _isLocked w0 then (None, pushRedoStack c true w0)
                else (Some c, w0)
    | None => (None, w0)
    end in
  match command with
  | Some c =>
      let w2 := if isEmptyRedoStack w1 then _fireRedoStackChanged w1 else w1 in
      _invokeExecution c w2
  | None =>
      let message := rejectMessages.redo in
      let message := if _isLocked w1
                     then message +:+ " Because " +:+ rejectMessages.isLock
                     else message in
      (Settled (Rejected (VStr message)), w1)
  end.

(** A call whose promise is awaited before anything else is called: what
    the promise settles with, and the world then. *)
Definition await (r : Returned * World) : Outcome * World :=
  match r with
  | (Settled o, w) => (o, w)
  | (Awaiting p, w) => finish (p_chain p) (settle p w)
  end.

End Invoker.

(** ** The older revision of the invoker

    The repository also holds an earlier invoker.js, whose entry point is
    [invoke(command)] instead of [execute]; its [_invokeExecution] ends in
    [.catch(() => {})] before it unlocks.  Only what [invoke] needs is
    modelled, as one awaited call. *)
Module legacy.

Definition pushUndoStack (command : Command) (isSilent : bool) (w : World)
  : World :=
  let w1 := Invoker.set_undoStack (_undoStack w ++ [command]) w in
  if negb isSilent then Invoker.fire PUSH_UNDO_STACK w1 else w1.

Definition clearRedoStack (w : World) : World :=
  if negb (Invoker.isEmptyRedoStack w)
  then Invoker.fire EMPTY_REDO_STACK (Invoker.set_redoStack [] w)
  else w.

(** [_invokeExecution(command)], awaited: the action runs on the component
    map alone; a rejection is swallowed and the chain goes on with
    [undefined]. *)
Definition _invokeExecution (command : Command) (w : World)
  : Outcome * World :=
  let w1 := Invoker.lock w in
  let r := execute command [] (undoData command) (_graphics w1) in
  let command' := set_undoData (res_undoData r) command in
  let w2 := Invoker.set_graphics (res_graphics r) w1 in
  match res_outcome r with
  | Resolved value =>
      let w3 := pushUndoStack command' false w2 in
      let w4 := Invoker.call (executeCallback command') value w3 in
      (Resolved value, Invoker.unlock w4)
  | Rejected _ => (Resolved VUndefined, Invoker.unlock w2)
  | Unsettled => (Unsettled, w2)
  end.

(** [invoke(command)], awaited. *)
Definition invoke (command : Command) (w : World) : Outcome * World :=
  if _isLocked w then (Rejected (VStr rejectMessages.isLock), w)
  else
    match _invokeExecution command w with
    | (Resolved value, w') => (Resolved value, clearRedoStack w')
    | r => r
    end.

End legacy.

(** ** Calls issued without waiting

    A caller may issue execute, undo and redo at any time, also while an
    earlier promise is pending or from inside a callback.  [inflight] holds
    the calls whose action has not settled yet; they settle one at a time,
    in any order.  [queued] holds the results of [_invokeExecution] that
    still wait for the reaction of [execute], which run first in, first
    out.

    Events are delivered synchronously, and ImageEditor hands both stack
    events on to the listeners of its users ([_attachInvokerEvents]), who
    may call execute, undo and redo from there.  Where the event is fired
    under the lock ([pushUndoStack] and [pushRedoStack] in the reactions)
    such a call is refused and changes nothing; where it is the last act of
    a reaction ([clearRedoStack]) or a callback, the call is one issued
    right after that reaction.  [undo] and [redo], however, fire their event
    after the pop and before [_invokeUndo] or [_invokeExecution] sets the
    lock: what a listener of that event calls runs in between. *)

Record System := mkSystem {
  world : World;
  inflight : list Pending;
  queued : list Outcome
}.

(** A synchronous call of execute, undo or redo.  [listener] is what the
    listeners of the event fired by this very call of undo or redo call in
    turn, in order. *)
#[local] Unset Elimination Schemes.
Inductive Sync :=
| syncExecute (command : Command)
| syncUndo (listener : list Sync)
| syncRedo (listener : list Sync).
#[local] Set Elimination Schemes.

Inductive Call :=
| callExecute (command : Command)
| callUndo (listener : list Sync)
| callRedo (listener : list Sync)
| settlement (i : nat)    (* the action of the i-th call in flight settles *)
| reaction.               (* the oldest queued reaction of execute runs *)

Definition issue (r : Returned * World) (s : System) : System :=
  match r with
  | (Awaiting p, w) => mkSystem w (inflight s ++ [p]) (queued s)
  | (Settled _, w) => mkSystem w (inflight s) (queued s)
  end.

(** [undo()] up to the event: the pop, the silent push back under the lock,
    and the event when the pop has emptied the stack.  The result is the
    command still to be undone, whether the event was fired, and the world
    its listeners see. *)
Definition undo_pop (w : World) : option Command * bool * World :=
  let '(command, rest) := Invoker.pop (_undoStack w) in
  let w0 := Invoker.set_undoStack rest w in
  let '(command, w1) :=
    match command with
    | Some c => if _isLocked w0 then (None, Invoker.pushUndoStack c true w0)
                else (Some c, w0)
    | None => (None, w0)
    end in
  match command with
  | Some c =>
      if Invoker.isEmptyUndoStack w1
      then (Some c, true, Invoker._fireUndoStackChanged w1)
      else (Some c, false, w1)
  | None => (None, false, w1)
  end.

(** [undo()] from there on: [_invokeUndo(command)], or the rejection. *)
Definition undo_invoke (command : option Command) (w : World)
  : Returned * World :=
  match command with
  | Some c => Invoker._invokeUndo c w
  | None =>
      let message := rejectMessages.undo in
      let message := if _isLocked w
                     then message +:+ " Because " +:+ rejectMessages.isLock
                     else message in
      (Settled (Rejected (VStr message)), w)
  end.

(** The same two halves of [redo()]. *)
Definition redo_pop (w : World) : option Command * bool * World :=
  let '(command, rest) := Invoker.pop (_redoStack w) in
  let w0 := Invoker.set_redoStack rest w in
  let '(command, w1) :=
    match command with
    | Some c => if _isLocked w0 then (None, Invoker.pushRedoStack c true w0)
                else (Some c, w0)
    | None => (None, w0)
    end in
  match command with
  | Some c =>
      if Invoker.isEmptyRedoStack w1
      then (Some c, true, Invoker._fireRedoStackChanged w1)
      else (Some c, false, w1)
  | None => (None, false, w1)
  end.

Definition redo_invoke (command : option Command) (w : World)
  : Returned * World :=
  match command with
  | Some c => Invoker._invokeExecution c w
  | None =>
      let message := rejectMessages.redo in
      let message := if _isLocked w
                     then message +:+ " Because " +:+ rejectMessages.isLock
                     else message in
      (Settled (Rejected (VStr message)), w)
  end.

(** One synchronous call, with the calls its listeners make run where the
    event is fired. *)
Fixpoint sync (c : Sync) (s : System) : System :=
  match c with
  | syncExecute command => issue (Invoker.execute command (world s)) s
  | syncUndo listener =>
      let '(command, notified, w) := undo_pop (world s) in
      let s1 := mkSystem w (inflight s) (queued s) in
      let s2 := if notified : bool
                then foldl (λ s0 c0, sync c0 s0) s1 listener else s1 in
      issue (undo_invoke command (world s2)) s2
  | syncRedo listener =>
      let '(command, notified, w) := redo_pop (world s) in
      let s1 := mkSystem w (inflight s) (queued s) in
      let s2 := if notified : bool
                then foldl (λ s0 c0, sync c0 s0) s1 listener else s1 in
      issue (redo_invoke command (world s2)) s2
  end.

Definition step (s : System) (c : Call) : System :=
  match c with
  | callExecute command => sync (syncExecute command) s
  | callUndo listener => sync (syncUndo listener) s
  | callRedo listener => sync (syncRedo listener) s
  | settlement i =>
      match inflight s !! i with
      | Some p =>
          let '(o, w) := Invoker.settle p (world s) in
          mkSystem w (delete i (inflight s))
                   (match p_chain p with
                    | invokeExecutionClear => queued s ++ [o]
                    | _ => queued s
                    end)
      | None => s
      end
  | reaction =>
      match queued s with
      | o :: rest =>
          mkSystem (Invoker.thenClearRedoStack o (world s)).2 (inflight s) rest
      | [] => s
      end
  end.

Definition run (s : System) (calls : list Call) : System := foldl step s calls.

(** The editor right after construction. *)
Definition boot (g : Graphics) : System := mkSystem (Invoker.new g) [] [].

(** The invariant behind mutual exclusion: a call in flight means the
    invoker is locked, and there is never a second one. *)
Definition exclusive (s : System) : Prop :=
  match inflight s with
  | [] => True
  | [_] => _isLocked (world s) = true
  | _ => False
  end.

(** A call during which no listener calls back into the invoker. *)
Definition quiet (c : Call) : Prop :=
  match c with
  | callUndo listener | callRedo listener => listener = []
  | _ => True
  end.

(** ** Well-formed stores

    What the listeners of Graphics keep true of a canvas that only
    [Graphics.add], [Graphics.remove] and the like have touched: no object is
    on the canvas twice, every registered id belongs to an object on the
    canvas, the active object is on the canvas, and a crop zone is never
    registered. *)
Record wf (g : Graphics) : Prop := mkWf {
  wf_nodup : NoDup (canvas_objects g);
  wf_registered : ∀ o, o ∈ _objects g → o ∈ canvas_objects g;
  wf_active : ∀ o, activeObject g = Some o → o ∈ canvas_objects g;
  wf_cropzone : ∀ o, o ∈ _objects g → Fabric.isType g o "cropzone" = false
}.


(** What [add] and [remove] leave alone. *)
Definition same_frame (g g' : Graphics) : Prop :=
  heap g' = heap g ∧ activeGroup g' = activeGroup g
  ∧ backgroundImage g' = backgroundImage g ∧ imageName g' = imageName g
  ∧ canvasImage g' = canvasImage g ∧ lastId g' = lastId g.


(** ** The round trip of one command

    [execute], then [undo], then [execute] again, each on what the previous
    action left: both later actions resolve, and the second [execute] leaves
    the Graphics state the first one left. *)
Definition replays (c : Command) : Prop :=
  ∀ (ud : UndoData) (g : Graphics) (v : Value),
    wf g →
    res_outcome (execute c (args c) ud g) = Resolved v →
    let r1 := execute c (args c) ud g in
    let r2 := undo c (args c) (res_undoData r1) (res_graphics r1) in
    let r3 := execute c (args c) (res_undoData r2) (res_graphics r2) in
    (∃ v2, res_outcome r2 = Resolved v2)
    ∧ (∃ v3, res_outcome r3 = Resolved v3)
    ∧ res_graphics r3 = res_graphics r1.


(** ** Commands that work on objects which exist already

    The command modules run by the invoker, and the commands the factory
    builds for the older [invoke]. *)
Inductive command_module : Command → Prop :=
| module_removeObject xs :
    command_module (newCommand command.removeObject xs)
| module_clearObjects xs :
    command_module (newCommand command.clearObjects xs)
| module_setObjectProperties xs :
    command_module (newCommand command.setObjectProperties xs).

Inductive factory_command : Command → Prop :=
| factory_addObject object :
    factory_command (factory.createAddObjectCommand object)
| factory_clear :
    factory_command factory.createClearCommand
| factory_remove target :
    factory_command (factory.createRemoveCommand target).

Definition on_existing_objects (c : Command) : Prop :=
  command_module c ∨ factory_command c.

(** ** Sample data *)

Definition demo_graphics : Graphics :=
  mkGraphics ∅ [] None None None ∅ "" None 0.

Definition demo_command : Command :=
  newCommand (mkActions "testCommand"
                (λ _ ud g, mkResult g ud (Resolved (VStr "testCommand")))
                (λ _ ud g, mkResult g ud (Resolved VUndefined))
                None None) [].

Definition failing_command : Command :=
  newCommand (mkActions "failing"
                (λ _ ud g, mkResult g ud (Rejected (VStr "no")))
                (λ _ ud g, mkResult g ud (Resolved VUndefined))
                None None) [].

Definition sample_image : FImage := mkFImage "sample.png" true.

Definition image_graphics : Graphics :=
  mkGraphics ∅ [] None None (Some sample_image) ∅ "sample" (Some sample_image) 0.

Definition plain (t : string) : FabricObject := mkFabricObject t [] ∅.

Definition two_objects : Graphics :=
  mkGraphics {[1 := plain "rect"; 2 := plain "circle"]} [1; 2] None None None
             {[1; 2]} "" None 2.

Definition grouped : Graphics :=
  mkGraphics {[1 := plain "rect"; 2 := plain "circle";
               3 := mkFabricObject "group" [1; 2] ∅]}
             [1; 2; 3] None (Some 3) None {[1; 2; 3]} "" None 3.

(** ** Graphics.getObjectProperties (graphics.js)

    [keys] is a string, an array of strings, or an object of which only the
    own keys are used. *)
Inductive Keys :=
| KeyString (key : string)
| KeyArray (keys : list string)
| KeyObject (keys : gmap string PropValue).

(** [getObjectProperties(id, keys)].  For an unknown id [object] is
    undefined and the first [object[key]] throws ([None]); with no key to
    read, the empty object is returned all the same. *)
Definition getObjectProperties (g : Graphics) (id : Value) (keys : Keys)
  : option (gmap string PropValue) :=
  match Graphics.getObject g id with
  | Some object =>
      Some (match keys with
            | KeyString key => {[key := Graphics.get_prop g object key]}
            | KeyArray keys =>
                foldl (λ props value,
                         <[value := Graphics.get_prop g object value]> props)
                      ∅ keys
            | KeyObject keys =>
                map_imap (λ key _, Some (Graphics.get_prop g object key)) keys
            end)
  | None =>
      match keys with
      | KeyString _ => None
      | KeyArray keys => if bool_decide (keys = []) then Some ∅ else None
      | KeyObject keys => if bool_decide (keys = ∅) then Some ∅ else None
      end
  end.

(** ** util.js *)
Module util.

(** [clamp(value, minValue, maxValue)], on integers. *)
Definition clamp (value minValue maxValue : Z) : Z :=
  let '(minValue, maxValue) :=
    if (minValue >? maxValue)%Z then (maxValue, minValue)
    else (minValue, maxValue) in
  Z.max minValue (Z.min value maxValue).

(** [keyMirror(...args)]. *)
Definition keyMirror (args : list string) : gmap string string :=
  foldl (λ obj key, <[key := key]> obj) ∅ args.

End util.

(** consts.drawingModes *)
Definition drawingModes : gmap string string :=
  util.keyMirror ["NORMAL"; "CROPPER"; "FREE_DRAWING"; "LINE_DRAWING"; "TEXT";
                  "SHAPE"].

(** ** Drawing modes (graphics.js, interface/drawingMode.js, drawingMode/)

    The drawing-mode fields of Graphics.  A registered instance belongs to a
    class that overrides [start], as ShapeDrawingMode and TextDrawingMode
    do; [ends] says whether the class defines [end] as well.  What [start]
    and [end] do to the component is recorded as a call. *)
Record DrawingMode := mkDrawingMode {
  ends : bool
}.

Inductive ModeCall :=
| started (mode : string)
| ended (mode : string).

Record Modes := mkModes {
  _drawingMode : string;
  _drawingModeMap : gmap string DrawingMode;
  mode_calls : list ModeCall
}.

Module DrawingModes.

Definition NORMAL : string := "NORMAL".

(** The fields as the constructor of Graphics leaves them, once
    [_createDrawingModeInstances] has filled the map. *)
Definition new (map : gmap string DrawingMode) : Modes :=
  mkModes NORMAL map [].

Definition getDrawingMode (s : Modes) : string := _drawingMode s.

Definition _isSameDrawingMode (s : Modes) (mode : string) : bool :=
  bool_decide (getDrawingMode s = mode).

Definition _getDrawingModeInstance (s : Modes) (modeName : string)
  : option DrawingMode :=
  _drawingModeMap s !! modeName.

Definition stopDrawingMode (s : Modes) : Modes :=
  if _isSameDrawingMode s NORMAL then s
  else
    let log :=
      match _getDrawingModeInstance s (getDrawingMode s) with
      | Some drawingModeInstance =>
          if ends drawingModeInstance
          then mode_calls s ++ [ended (getDrawingMode s)]
          else mode_calls s
      | None => mode_calls s
      end in
    mkModes NORMAL (_drawingModeMap s) log.

Definition startDrawingMode (mode : string) (s : Modes) : bool * Modes :=
  if _isSameDrawingMode s mode then (true, s)
  else
    let s1 := stopDrawingMode s in
    match _getDrawingModeInstance s1 mode with
    | Some _ =>
        (true, mkModes mode (_drawingModeMap s1)
                       (mode_calls s1 ++ [started mode]))
    | None => (false, s1)
    end.

End DrawingModes.

(** A caller's request: start a mode or stop the current one. *)
Inductive ModeRequest :=
| requestStart (mode : string)
| requestStop.

Definition request (s : Modes) (r : ModeRequest) : Modes :=
  match r with
  | requestStart mode => (DrawingModes.startDrawingMode mode s).2
  | requestStop => DrawingModes.stopDrawingMode s
  end.

(** The mode a log of calls leaves open: the one started last and not ended
    since. *)
Definition open_mode (log : list ModeCall) : string :=
  match last log with
  | Some (started mode) => mode
  | _ => DrawingModes.NORMAL
  end.

(** No mode is started while another one is open, and only the open mode is
    ended. *)
Fixpoint bracketed (current : option string) (log : list ModeCall) : bool :=
  match log with
  | [] => true
  | started mode :: rest =>
      match current with
      | None => bracketed (Some mode) rest
      | Some _ => false
      end
  | ended mode :: rest =>
      match current with
      | Some m => bool_decide (m = mode) && bracketed None rest
      | None => false
      end
  end.

(** The two instances whose classes the repository shows. *)
Definition shape_and_text : gmap string DrawingMode :=
  list_to_map [("SHAPE", mkDrawingMode true); ("TEXT", mkDrawingMode true)].

(** The mode field agrees with the log of calls: the log is bracketed; in
    NORMAL mode its last call, if any, is an [end]; in any other mode it is
    the [start] of that mode, which is registered. *)
Definition agrees (map : gmap string DrawingMode) (s : Modes) : Prop :=
  _drawingModeMap s = map
  ∧ bracketed None (mode_calls s) = true
  ∧ if bool_decide (_drawingMode s = DrawingModes.NORMAL)
    then match last (mode_calls s) with
         | Some (started _) => False
         | _ => True
         end
    else last (mode_calls s) = Some (started (_drawingMode s))
         ∧ is_Some (map !! _drawingMode s).

(** Unfolds the setters of the invoker. *)
Ltac unfold_invoker :=
  unfold Invoker.call, Invoker.pushUndoStack, Invoker.pushRedoStack,
    Invoker._fireRedoStackChanged, Invoker._fireUndoStackChanged,
    Invoker.fire, Invoker.unlock, Invoker.lock, Invoker.set_undoStack,
    Invoker.set_redoStack, Invoker.set_graphics, Invoker.set_isLocked.

(** * Properties *)

(** ** The invoker *)

Lemma world_eta (w : World) :
  mkWorld (_undoStack w) (_redoStack w) (_isLocked w) (_graphics w) (fired w) = w.
Proof. by destruct w. Qed.

Lemma pop_snoc (l : list Command) (c : Command) :
  Invoker.pop (l ++ [c]) = (Some c, l).
Proof.
  unfold Invoker.pop. by rewrite last_snoc, removelast_last.
Qed.

Lemma pop_nil : Invoker.pop [] = (None, []).
Proof. reflexivity. Qed.

Lemma stack_snoc_inv (l : list Command) :
  l ≠ [] → ∃ l' c, l = l' ++ [c].
Proof.
  intros Hne. destruct (exists_last Hne) as (l' & c & ->). eauto.
Qed.

(** C10.  clearUndoStack and clearRedoStack leave an empty stack, and with
    it the whole world, as it is and fire nothing; on a non-empty stack they
    empty it and fire exactly one stack-changed event (carrying length 0),
    and the other stack, the lock flag and the Graphics state stay as they
    were. *)
Theorem clearStacks_frame (w : World) :
  Invoker.clearUndoStack w =
    match _undoStack w with
    | [] => w
    | _ :: _ => mkWorld [] (_redoStack w) (_isLocked w) (_graphics w)
                        (fired w ++ [UNDO_STACK_CHANGED 0])
    end
  ∧ Invoker.clearRedoStack w =
    match _redoStack w with
    | [] => w
    | _ :: _ => mkWorld (_undoStack w) [] (_isLocked w) (_graphics w)
                        (fired w ++ [REDO_STACK_CHANGED 0])
    end.
Proof.
  destruct w as [us rs lk g ev]; split.
  - destruct us; reflexivity.
  - destruct rs; reflexivity.
Qed.

Lemma length_zero_nil {A} (l : list A) :
  bool_decide (length l = 0) = bool_decide (l = []).
Proof. destruct l; reflexivity. Qed.

(** C9.  A successful undo fires an undo-stack-changed event only when the
    pop leaves the undo stack empty.  From an undo stack of two or more
    commands the only stack event of the whole undo is the redo-stack one
    fired once the inverse action has resolved (followed by the command's
    undo callback, if it has one): the new undo-stack length is not
    announced. *)
Theorem undo_notifications (w : World) (l : list Command) (c : Command)
    (value : Value) :
  _isLocked w = false →
  _undoStack w = l ++ [c] →
  res_outcome (undo c (args c) (undoData c) (_graphics w)) = Resolved value →
  ∃ w', Invoker.await (Invoker.undo w) = (Resolved value, w')
        ∧ _undoStack w' = l
        ∧ fired w' =
            fired w
            ++ (if bool_decide (l = []) then [UNDO_STACK_CHANGED 0] else [])
            ++ [REDO_STACK_CHANGED (S (length (_redoStack w)))]
            ++ (match undoCallback c with
                | Some cb => [CALLBACK cb value]
                | None => []
                end).
Proof.
  intros Hlock Hstack Hres.
  destruct w as [us rs lk g ev]; simpl in *; subst us lk.
  unfold Invoker.undo. cbn [_undoStack]. rewrite pop_snoc. cbn.
  unfold Invoker.isEmptyUndoStack; cbn. rewrite length_zero_nil.
  unfold Invoker._invokeUndo, Invoker.start.
  destruct (bool_decide (l = [])) eqn:Hl; cbn; rewrite Hres; cbn.
  - apply bool_decide_eq_true in Hl; subst l.
    eexists; split; [reflexivity|]. split; [by destruct (undoCallback c)|].
    destruct (undoCallback c); cbn; rewrite ?length_app; cbn;
      rewrite <- ?app_assoc; cbn; repeat f_equal; lia.
  - eexists; split; [reflexivity|]. split; [by destruct (undoCallback c)|].
    destruct (undoCallback c); cbn; rewrite ?length_app; cbn;
      rewrite <- ?app_assoc; cbn; repeat f_equal; lia.
Qed.

Lemma undo_notifications_witness :
  ∃ w', Invoker.await
          (Invoker.undo (mkWorld [demo_command; demo_command] [] false
                                 demo_graphics []))
        = (Resolved VUndefined, w')
        ∧ _undoStack w' = [demo_command]
        ∧ fired w' = [REDO_STACK_CHANGED 1].
Proof.
  apply (undo_notifications
           (mkWorld [demo_command; demo_command] [] false demo_graphics [])
           [demo_command] demo_command VUndefined); reflexivity.
Defined.

(** C5.  With an empty undo stack, undo() rejects with the undo message
    (with the lock message appended when the invoker is locked as well) and
    changes nothing at all, the redo stack included.  With a command on the
    undo stack and the invoker locked, the popped command is pushed back
    silently: the world, undo stack and event log included, is exactly what
    it was, and the promise rejects with the undo message and the lock
    message combined. *)
Theorem undo_rejects (w : World) :
  (_undoStack w = [] →
     ∃ message,
       Invoker.undo w = (Settled (Rejected (VStr message)), w)
       ∧ String.prefix rejectMessages.undo message = true
       ∧ (_isLocked w = false → message = rejectMessages.undo))
  ∧ (_undoStack w ≠ [] → _isLocked w = true →
     Invoker.undo w =
       (Settled (Rejected (VStr (rejectMessages.undo +:+ " Because "
                                 +:+ rejectMessages.isLock))), w)).
Proof.
  destruct w as [us rs lk g ev]; cbn [_undoStack _isLocked]; split.
  - intros ->. destruct lk; eexists; (split; [reflexivity|]); by split.
  - intros Hne ->. destruct (stack_snoc_inv us Hne) as (l & c & ->).
    unfold Invoker.undo. cbn [_undoStack]. by rewrite pop_snoc.
Qed.

Lemma undo_rejects_witness :
  (∃ message,
     Invoker.undo (Invoker.new demo_graphics)
       = (Settled (Rejected (VStr message)), Invoker.new demo_graphics)
     ∧ String.prefix rejectMessages.undo message = true
     ∧ (false = false → message = rejectMessages.undo))
  ∧ Invoker.undo (mkWorld [demo_command] [] true demo_graphics [])
    = (Settled (Rejected (VStr (rejectMessages.undo +:+ " Because "
                                +:+ rejectMessages.isLock))),
       mkWorld [demo_command] [] true demo_graphics []).
Proof.
  split.
  - apply (undo_rejects (Invoker.new demo_graphics)). reflexivity.
  - apply (undo_rejects (mkWorld [demo_command] [] true demo_graphics []));
      [discriminate | reflexivity].
Defined.

(** C4.  When the forward action of a command fails during execute(), the
    promise execute() returned rejects with the very reason the command
    gave, the invoker ends up unlocked, and the undo stack, the redo stack
    and the event log are what they were before the call. *)
Theorem execute_failure (w : World) (command : Command) (reason : Value) :
  _isLocked w = false →
  res_outcome (execute command (args command) (undoData command) (_graphics w))
    = Rejected reason →
  ∃ w', Invoker.await (Invoker.execute command w) = (Rejected reason, w')
        ∧ _isLocked w' = false
        ∧ _undoStack w' = _undoStack w
        ∧ _redoStack w' = _redoStack w
        ∧ fired w' = fired w.
Proof.
  intros Hlock Hres. destruct w as [us rs lk g ev]; cbn in *; subst lk.
  unfold Invoker.execute, Invoker._invokeExecution, Invoker.start; cbn.
  rewrite Hres; cbn. unfold Invoker.settle; cbn. eauto 10.
Qed.

Lemma execute_failure_witness :
  ∃ w', Invoker.await
          (Invoker.execute failing_command
             (mkWorld [demo_command] [demo_command] false demo_graphics []))
        = (Rejected (VStr "no"), w')
        ∧ _isLocked w' = false
        ∧ _undoStack w' = [demo_command]
        ∧ _redoStack w' = [demo_command]
        ∧ fired w' = [].
Proof.
  apply (execute_failure
           (mkWorld [demo_command] [demo_command] false demo_graphics [])
           failing_command (VStr "no")); reflexivity.
Defined.

(** The older [invoke] does not have the property of C4: the rejection of
    the forward action never reaches the caller, whose promise resolves with
    [undefined], and the redo stack is emptied as after a success. *)
Lemma legacy_invoke_swallows (w : World) (command : Command) (reason : Value) :
  _isLocked w = false →
  res_outcome (execute command [] (undoData command) (_graphics w))
    = Rejected reason →
  ∃ w', legacy.invoke command w = (Resolved VUndefined, w')
        ∧ _isLocked w' = false
        ∧ _undoStack w' = _undoStack w
        ∧ _redoStack w' = [].
Proof.
  intros Hlock Hres. destruct w as [us rs lk g ev]; cbn in *; subst lk.
  unfold legacy.invoke, legacy._invokeExecution; cbn. rewrite Hres; cbn.
  eexists; split; [reflexivity|].
  unfold legacy.clearRedoStack, Invoker.isEmptyRedoStack; cbn.
  by destruct rs.
Qed.

(** C3.  Whatever the history, once a successful execute() of a command has
    resolved, the redo stack is empty: isEmptyRedoStack() answers true.  The
    stack is emptied by the last reaction before the promise resolves, so
    this holds of any world that reaction runs in, whatever was called in
    between. *)
Theorem execute_clears_redo (w : World) (command : Command) (value : Value) :
  _isLocked w = false →
  res_outcome (execute command (args command) (undoData command) (_graphics w))
    = Resolved value →
  (∃ w', Invoker.await (Invoker.execute command w) = (Resolved value, w')
         ∧ _redoStack w' = []
         ∧ Invoker.isEmptyRedoStack w' = true)
  ∧ ∀ w0, Invoker.isEmptyRedoStack
            (Invoker.thenClearRedoStack (Resolved value) w0).2 = true.
Proof.
  intros Hlock Hres. split.
  - destruct w as [us rs lk g ev]; cbn in *; subst lk.
    unfold Invoker.execute, Invoker._invokeExecution, Invoker.start; cbn.
    rewrite Hres; cbn. unfold Invoker.settle; cbn.
    eexists; split; [reflexivity|].
    unfold Invoker.clearRedoStack, Invoker.isEmptyRedoStack.
    destruct (executeCallback command); destruct rs; cbn; by split.
  - intros [us rs lk g ev]. cbn.
    unfold Invoker.clearRedoStack, Invoker.isEmptyRedoStack. by destruct rs.
Qed.

Lemma execute_clears_redo_witness :
  ∃ w', Invoker.await
          (Invoker.execute demo_command
             (mkWorld [] [demo_command; demo_command] false demo_graphics []))
        = (Resolved (VStr "testCommand"), w')
        ∧ _redoStack w' = []
        ∧ Invoker.isEmptyRedoStack w' = true.
Proof.
  apply (execute_clears_redo
           (mkWorld [] [demo_command; demo_command] false demo_graphics [])
           demo_command (VStr "testCommand")); reflexivity.
Defined.

Lemma start_exclusive chain action command w w0 q :
  exclusive (issue (Invoker.start chain action command w) (mkSystem w0 [] q)).
Proof.
  unfold Invoker.start, issue, exclusive.
  destruct (res_outcome _); reflexivity.
Qed.

Lemma execute_locked command w :
  _isLocked w = true →
  Invoker.execute command w
  = (Settled (Rejected (VStr rejectMessages.isLock)), w).
Proof. intros H. unfold Invoker.execute. by rewrite H. Qed.

Lemma unlocked_idle s :
  exclusive s → _isLocked (world s) = false → inflight s = [].
Proof.
  unfold exclusive. destruct (inflight s) as [|p [|q l]]; [done| |done].
  congruence.
Qed.

Lemma issue_settled_exclusive s o w :
  exclusive s → _isLocked w = _isLocked (world s) →
  exclusive (issue (Settled o, w) s).
Proof.
  unfold exclusive, issue; cbn. intros H Hl.
  destruct (inflight s) as [|p [|q l]]; [done| |done]. congruence.
Qed.

Lemma thenClearRedoStack_locked o w :
  _isLocked (Invoker.thenClearRedoStack o w).2 = _isLocked w.
Proof.
  destruct o; cbn; [|done|done]. unfold Invoker.clearRedoStack.
  by destruct (negb _).
Qed.

Lemma undo_split w :
  Invoker.undo w = undo_invoke (undo_pop w).1.1 (undo_pop w).2.
Proof.
  unfold Invoker.undo, undo_pop.
  destruct (Invoker.pop (_undoStack w)) as [[c|] rest]; [|done].
  destruct (_isLocked (Invoker.set_undoStack rest w)); [done|].
  by destruct (Invoker.isEmptyUndoStack (Invoker.set_undoStack rest w)).
Qed.

Lemma redo_split w :
  Invoker.redo w = redo_invoke (redo_pop w).1.1 (redo_pop w).2.
Proof.
  unfold Invoker.redo, redo_pop.
  destruct (Invoker.pop (_redoStack w)) as [[c|] rest]; [|done].
  destruct (_isLocked (Invoker.set_redoStack rest w)); [done|].
  by destruct (Invoker.isEmptyRedoStack (Invoker.set_redoStack rest w)).
Qed.

(** With listeners that call nothing, the two halves are [undo] and [redo]
    themselves. *)
Lemma sync_undo_quiet s :
  sync (syncUndo []) s = issue (Invoker.undo (world s)) s.
Proof.
  cbn [sync]. rewrite undo_split.
  destruct (undo_pop (world s)) as [[c n] w]. cbn [fst snd foldl].
  destruct n; cbn [world]; by destruct (undo_invoke c w) as [[o|p] w'].
Qed.

Lemma sync_redo_quiet s :
  sync (syncRedo []) s = issue (Invoker.redo (world s)) s.
Proof.
  cbn [sync]. rewrite redo_split.
  destruct (redo_pop (world s)) as [[c n] w]. cbn [fst snd foldl].
  destruct n; cbn [world]; by destruct (redo_invoke c w) as [[o|p] w'].
Qed.

Lemma undo_pop_locked w : _isLocked w = true → undo_pop w = (None, false, w).
Proof.
  destruct w as [us rs lk g ev]; cbn [_isLocked]; intros ->.
  destruct (decide (us = [])) as [->|Hne]; [done|].
  destruct (stack_snoc_inv us Hne) as (l & c & ->).
  unfold undo_pop. cbn [_undoStack]. by rewrite pop_snoc.
Qed.

Lemma redo_pop_locked w : _isLocked w = true → redo_pop w = (None, false, w).
Proof.
  destruct w as [us rs lk g ev]; cbn [_isLocked]; intros ->.
  destruct (decide (rs = [])) as [->|Hne]; [done|].
  destruct (stack_snoc_inv rs Hne) as (l & c & ->).
  unfold redo_pop. cbn [_redoStack]. by rewrite pop_snoc.
Qed.

(** Under the lock a call changes nothing, whatever its listeners would
    call: no event reaches them. *)
Lemma sync_locked c s : _isLocked (world s) = true → sync c s = s.
Proof.
  destruct s as [w fl qu]. cbn [world]. intros Hl.
  destruct c as [command|listener|listener]; cbn [sync world inflight queued].
  - by rewrite execute_locked.
  - by rewrite undo_pop_locked.
  - by rewrite redo_pop_locked.
Qed.

Lemma step_exclusive s c : quiet c → exclusive s → exclusive (step s c).
Proof.
  intros Hquiet Hex. destruct s as [w fl qu].
  destruct c as [command|listener|listener|i|]; cbn [quiet] in Hquiet;
    try subst listener; cbn [step];
    rewrite ?sync_undo_quiet, ?sync_redo_quiet; cbn [sync world inflight queued].
  - destruct (_isLocked w) eqn:Hl.
    + rewrite execute_locked by done. by apply issue_settled_exclusive.
    + apply (unlocked_idle _ Hex) in Hl as Hfl. cbn in Hfl; subst fl.
      unfold Invoker.execute. rewrite Hl.
      unfold Invoker._invokeExecution, Invoker.start, issue, exclusive.
      destruct (res_outcome _); reflexivity.
  - destruct w as [us rs lk g ev].
    destruct (decide (us = [])) as [->|Hne].
    + unfold Invoker.undo. cbn [_undoStack]. rewrite pop_nil.
      cbn [_isLocked Invoker.set_undoStack].
      apply (issue_settled_exclusive _ _ _ Hex). reflexivity.
    + destruct (stack_snoc_inv us Hne) as (l & c & ->).
      unfold Invoker.undo. cbn [_undoStack]. rewrite pop_snoc.
      destruct lk; cbn [_isLocked Invoker.set_undoStack Invoker.set_redoStack].
      * apply (issue_settled_exclusive _ _ _ Hex). reflexivity.
      * pose proof (unlocked_idle _ Hex eq_refl) as Hfl. cbn in Hfl; subst fl.
        apply start_exclusive.
  - destruct w as [us rs lk g ev].
    destruct (decide (rs = [])) as [->|Hne].
    + unfold Invoker.redo. cbn [_redoStack]. rewrite pop_nil.
      cbn [_isLocked Invoker.set_redoStack].
      apply (issue_settled_exclusive _ _ _ Hex). reflexivity.
    + destruct (stack_snoc_inv rs Hne) as (l & c & ->).
      unfold Invoker.redo. cbn [_redoStack]. rewrite pop_snoc.
      destruct lk; cbn [_isLocked Invoker.set_undoStack Invoker.set_redoStack].
      * apply (issue_settled_exclusive _ _ _ Hex). reflexivity.
      * pose proof (unlocked_idle _ Hex eq_refl) as Hfl. cbn in Hfl; subst fl.
        apply start_exclusive.
  - unfold exclusive in Hex; cbn in Hex.
    destruct fl as [|p [|q l]]; [by destruct i| |done].
    destruct i as [|i]; cbn; [|by destruct i].
    by destruct (Invoker.settle p w).
  - destruct qu as [|o rest]; [done|].
    unfold exclusive in *; cbn in *.
    destruct fl as [|p [|q l]]; [done| |done].
    by rewrite thenClearRedoStack_locked.
Qed.

Lemma run_exclusive s calls :
  Forall quiet calls → exclusive s → exclusive (run s calls).
Proof.
  intros Hquiet. revert s.
  induction Hquiet as [|c calls Hc _ IH]; intros s Hex; [done|].
  cbn. apply IH. by apply step_exclusive.
Qed.

(** C2 fails when a listener calls back into the invoker.  The undo stack
    holds one command; undo() pops it and, the stack being empty now, fires
    the undo-stack event before it locks.  A listener of that event calls
    execute(): the invoker is not locked, so the call is accepted, locks and
    starts its forward action.  undo() then goes on to [_invokeUndo] and
    starts the inverse action: two actions are in flight.  When the first of
    them settles the invoker unlocks although the other one is still in
    flight. *)
Lemma listener_call_overlaps :
  let s := run (boot demo_graphics)
               [callExecute demo_command; settlement 0; reaction;
                callUndo [syncExecute demo_command]] in
  p_chain <$> inflight s = [invokeExecutionClear; invokeUndo]
  ∧ ¬ (length (inflight s) ≤ 1)%nat
  ∧ fired (world s) = [UNDO_STACK_CHANGED 1; UNDO_STACK_CHANGED 0]
  ∧ inflight (step s (settlement 0)) ≠ []
  ∧ _isLocked (world (step s (settlement 0))) = false.
Proof.
  vm_compute. split; [reflexivity|]. split; [lia|]. split; [reflexivity|].
  split; [discriminate|reflexivity].
Qed.

(** C2.  As long as no listener of the event that undo() or redo() fires
    before it locks calls back into the invoker: however execute, undo and
    redo are issued without waiting, at most one call is ever in flight, and
    while one is in flight the lock flag is set.  A call issued while the
    lock flag is set changes nothing, listeners or not: execute() rejects at
    once with the lock message, no action runs, both stacks stay as they
    are, nothing is queued and no event is fired. *)
Theorem stack_exclusivity (g : Graphics) (calls : list Call) :
  Forall quiet calls →
  let s := run (boot g) calls in
  (length (inflight s) ≤ 1)%nat
  ∧ (inflight s ≠ [] → _isLocked (world s) = true)
  ∧ ∀ (w : World) (command : Command),
      _isLocked w = true →
      Invoker.execute command w
        = (Settled (Rejected (VStr rejectMessages.isLock)), w)
      ∧ (∀ fl qu,
           step (mkSystem w fl qu) (callExecute command) = mkSystem w fl qu)
      ∧ ∀ c fl qu, sync c (mkSystem w fl qu) = mkSystem w fl qu.
Proof.
  intros Hquiet s.
  assert (Hex : exclusive s) by (by apply run_exclusive).
  unfold exclusive in Hex. split; [|split].
  - destruct (inflight s) as [|p [|q l]]; cbn; [lia|lia|done].
  - destruct (inflight s) as [|p [|q l]]; done.
  - intros w command Hl. split; [by apply execute_locked|]. split.
    + intros fl qu. cbn. by rewrite execute_locked.
    + intros c fl qu. by apply sync_locked.
Qed.

Lemma stack_exclusivity_witness :
  let s := run (boot demo_graphics)
               [callExecute demo_command; callExecute demo_command;
                callUndo []] in
  (length (inflight s) ≤ 1)%nat
  ∧ _isLocked (world s) = true
  ∧ Invoker.execute demo_command (world s)
    = (Settled (Rejected (VStr rejectMessages.isLock)), world s).
Proof.
  intros s.
  destruct (stack_exclusivity demo_graphics
              [callExecute demo_command; callExecute demo_command;
               callUndo []])
    as (Hone & Hlocked & Hreject).
  { repeat constructor. }
  assert (Hl : _isLocked (world s) = true)
    by (apply Hlocked; vm_compute; discriminate).
  split; [exact Hone|]. split; [exact Hl|]. by apply Hreject.
Defined.

(** ** The canvas *)

Section Fabric_facts.
Import Fabric.

Lemma remove_first_notin o l : o ∉ l → remove_first o l = l.
Proof.
  induction l as [|x l IH]; [done|]. intros Hn. cbn.
  apply not_elem_of_cons in Hn as [Hne Hn].
  rewrite decide_False by done. by rewrite IH.
Qed.

Lemma remove_first_subseteq o l : remove_first o l ⊆ l.
Proof.
  induction l as [|x l IH]; [done|]. cbn.
  destruct (decide (x = o)); set_solver.
Qed.

Lemma remove_first_NoDup o l : NoDup l → NoDup (remove_first o l).
Proof.
  induction 1 as [|x l Hx Hl IH]; [constructor|]. cbn.
  destruct (decide (x = o)); [done|]. constructor; [|done].
  intros Hin. by apply Hx, (remove_first_subseteq o).
Qed.

Lemma remove_first_gone o l : NoDup l → o ∉ remove_first o l.
Proof.
  induction 1 as [|x l Hx Hl IH]; [set_solver|]. cbn.
  destruct (decide (x = o)); [by subst|]. set_solver.
Qed.

Lemma remove_first_other o x l : x ≠ o → x ∈ l → x ∈ remove_first o l.
Proof.
  intros Hne. induction l as [|y l IH]; [done|]. cbn.
  destruct (decide (y = o)); set_solver.
Qed.

Lemma remove_first_app_r o l r :
  o ∉ l → remove_first o (l ++ o :: r) = l ++ r.
Proof.
  induction l as [|x l IH]; cbn; intros Hn.
  - by rewrite decide_True.
  - apply not_elem_of_cons in Hn as [Hne Hn].
    rewrite decide_False by done. by rewrite IH.
Qed.

Lemma canvas_remove1 g o :
  canvas_objects (remove1 g o) = remove_first o (canvas_objects g).
Proof.
  unfold remove1, contains.
  destruct (bool_decide_reflect (o ∈ canvas_objects g)) as [Hin|Hin].
  - by destruct (decide _).
  - by rewrite remove_first_notin.
Qed.

Lemma remove_cons o os g : remove (o :: os) g = remove os (remove1 g o).
Proof. reflexivity. Qed.

Lemma add_cons o os g : add (o :: os) g = add os (add1 g o).
Proof. reflexivity. Qed.

Lemma canvas_remove os g :
  canvas_objects (remove os g)
  = foldl (λ l o, remove_first o l) (canvas_objects g) os.
Proof.
  revert g. induction os as [|o os IH]; intros g; [done|].
  rewrite remove_cons, IH, canvas_remove1. reflexivity.
Qed.

Lemma canvas_add os g :
  canvas_objects (add os g) = canvas_objects g ++ os.
Proof.
  revert g. induction os as [|o os IH]; intros g.
  - cbn. by rewrite app_nil_r.
  - rewrite add_cons, IH. unfold add1, _onObjectAdded.
    destruct (isType _ _ _); cbn; by rewrite <- app_assoc.
Qed.

Lemma remove_all_canvas l :
  foldl (λ l o, remove_first o l) l l = [].
Proof.
  induction l as [|x l IH]; [done|]. cbn. by rewrite decide_True.
Qed.

Lemma remove1_wf g o : wf g → wf (remove1 g o).
Proof.
  intros [Hnd Hreg Hact Hcz]. unfold remove1, contains.
  destruct (bool_decide_reflect (o ∈ canvas_objects g)) as [Hin|Hin];
    [|by constructor].
  cbn. constructor; [| | |intros x; destruct (decide _); cbn; intros Hx;
                          apply elem_of_difference in Hx as [Hx _];
                          by apply Hcz in Hx].
  - destruct (decide _); cbn; by apply remove_first_NoDup.
  - intros x. destruct (decide _); cbn; intros Hx;
      apply elem_of_difference in Hx as [Hx Hne];
      (apply remove_first_other; [set_solver|by apply Hreg]).
  - intros x. destruct (decide _) as [Ha|Ha]; cbn; [done|]. intros Hx.
    apply remove_first_other; [|by apply Hact]. congruence.
Qed.

Lemma remove_wf os g : wf g → wf (remove os g).
Proof.
  revert g. induction os as [|o os IH]; intros g Hwf; [done|].
  rewrite remove_cons. by apply IH, remove1_wf.
Qed.

Lemma remove_subseteq os g :
  canvas_objects (remove os g) ⊆ canvas_objects g.
Proof.
  revert g. induction os as [|o os IH]; intros g; [done|].
  rewrite remove_cons.
  etrans; [apply IH|]. rewrite canvas_remove1. apply remove_first_subseteq.
Qed.

Lemma remove_gone os g o :
  NoDup (canvas_objects g) → o ∈ os → o ∉ canvas_objects (remove os g).
Proof.
  revert g. induction os as [|x os IH]; intros g Hnd Hin; [by inversion Hin|].
  rewrite remove_cons. destruct (decide (o = x)) as [->|Hne].
  - intros Hx. apply remove_subseteq in Hx. rewrite canvas_remove1 in Hx.
    by apply remove_first_gone in Hx.
  - apply IH; [|set_solver]. rewrite canvas_remove1.
    by apply remove_first_NoDup.
Qed.

Lemma graphics_ext (g g' : Graphics) :
  heap g = heap g' → canvas_objects g = canvas_objects g' →
  activeObject g = activeObject g' → activeGroup g = activeGroup g' →
  backgroundImage g = backgroundImage g' → _objects g = _objects g' →
  imageName g = imageName g' → canvasImage g = canvasImage g' →
  lastId g = lastId g' → g = g'.
Proof. destruct g, g'; cbn; intros; by subst. Qed.

Lemma same_frame_refl g : same_frame g g.
Proof. by repeat split. Qed.

Lemma same_frame_trans g1 g2 g3 :
  same_frame g1 g2 → same_frame g2 g3 → same_frame g1 g3.
Proof.
  intros (?&?&?&?&?&?) (?&?&?&?&?&?). repeat split; congruence.
Qed.

Lemma add1_frame g o : same_frame g (add1 g o).
Proof.
  unfold add1, _onObjectAdded. destruct (isType _ _ _); by repeat split.
Qed.

Lemma remove1_frame g o : same_frame g (remove1 g o).
Proof.
  unfold remove1. destruct (contains g o); [|apply same_frame_refl].
  cbn. destruct (decide _); by repeat split.
Qed.

Lemma add_frame os g : same_frame g (add os g).
Proof.
  revert g. induction os as [|o os IH]; intros g; [apply same_frame_refl|].
  rewrite add_cons. eapply same_frame_trans; [apply add1_frame|apply IH].
Qed.

Lemma remove_frame os g : same_frame g (remove os g).
Proof.
  revert g. induction os as [|o os IH]; intros g; [apply same_frame_refl|].
  rewrite remove_cons.
  eapply same_frame_trans; [apply remove1_frame|apply IH].
Qed.

Lemma add_activeObject os g : activeObject (add os g) = activeObject g.
Proof.
  revert g. induction os as [|o os IH]; intros g; [done|].
  rewrite add_cons, IH. unfold add1, _onObjectAdded.
  by destruct (isType _ _ _).
Qed.

Lemma add_registry os g :
  _objects g ⊆ _objects (add os g)
  ∧ _objects (add os g) ⊆ _objects g ∪ list_to_set os.
Proof.
  revert g. induction os as [|o os IH]; intros g; [set_solver|].
  rewrite add_cons. destruct (IH (add1 g o)) as [IH1 IH2].
  assert (_objects g ⊆ _objects (add1 g o)
          ∧ _objects (add1 g o) ⊆ _objects g ∪ {[o]}) as [H1 H2].
  { unfold add1, _onObjectAdded. destruct (isType _ _ _); cbn; set_solver. }
  set_solver.
Qed.

(** Taking off the canvas a batch of objects that sits at its end. *)
Lemma remove_suffix ms g c :
  canvas_objects g = c ++ ms →
  (∀ m, m ∈ ms → m ∉ c) →
  (∀ m, m ∈ ms → activeObject g ≠ Some m) →
  canvas_objects (remove ms g) = c
  ∧ activeObject (remove ms g) = activeObject g
  ∧ _objects (remove ms g) = _objects g ∖ list_to_set ms.
Proof.
  revert g. induction ms as [|m ms IH]; intros g Hc Hfresh Hact.
  - cbn. rewrite app_nil_r in Hc. set_solver.
  - rewrite remove_cons.
    assert (Hin : contains g m = true).
    { unfold contains. apply bool_decide_eq_true. rewrite Hc. set_solver. }
    assert (Hm : m ∉ c) by (apply Hfresh; set_solver).
    destruct (IH (remove1 g m)) as (IH1 & IH2 & IH3).
    + rewrite canvas_remove1, Hc. by apply remove_first_app_r.
    + intros x Hx. apply Hfresh. set_solver.
    + intros x Hx. unfold remove1. rewrite Hin. cbn.
      destruct (decide _); cbn; [done|]. apply Hact. set_solver.
    + split; [done|]. rewrite IH2, IH3. unfold remove1. rewrite Hin. cbn.
      destruct (decide (activeObject g = Some m)) as [Ha|Ha].
      * exfalso. apply (Hact m); [set_solver|done].
      * cbn. split; [done|]. set_solver.
Qed.

(** Objects that are put on a canvas that knows nothing of them and are
    taken off again leave the canvas as it was. *)
Lemma remove_add_cancel ms g :
  (∀ m, m ∈ ms → (m ∉ canvas_objects g) ∧ (m ∉ _objects g)
                 ∧ activeObject g ≠ Some m) →
  remove ms (add ms g) = g.
Proof.
  intros Hclean.
  destruct (remove_suffix ms (add ms g) (canvas_objects g))
    as (H1 & H2 & H3).
  - apply canvas_add.
  - intros m Hm. by apply Hclean.
  - intros m Hm. rewrite add_activeObject. by apply Hclean.
  - destruct (same_frame_trans _ _ _ (add_frame ms g)
                (remove_frame ms (add ms g))) as (?&?&?&?&?&?).
    destruct (add_registry ms g) as [Hr1 Hr2].
    apply graphics_ext; try done.
    + by rewrite H2, add_activeObject.
    + rewrite H3. apply set_eq. intros x.
      rewrite elem_of_difference, elem_of_list_to_set.
      split; [intros [Hx Hn]|intros Hx].
      * apply Hr2 in Hx. set_solver.
      * split; [by apply Hr1|]. intros Hm. by destruct (Hclean x Hm) as (_&?&_).
Qed.

Lemma discardActiveGroup_id g :
  activeGroup g = None → discardActiveGroup g = g.
Proof. destruct g; cbn; by intros ->. Qed.

Lemma discardActiveGroup_wf g : wf g → wf (discardActiveGroup g).
Proof. intros [? ? ? ?]. by constructor. Qed.

Lemma remove_clean ms g m :
  wf g → m ∈ ms →
  (m ∉ canvas_objects (remove ms g)) ∧ (m ∉ _objects (remove ms g))
  ∧ activeObject (remove ms g) ≠ Some m.
Proof.
  intros Hwf Hm.
  assert (Hgone : m ∉ canvas_objects (remove ms g))
    by (apply remove_gone; [apply Hwf|done]).
  destruct (remove_wf ms g Hwf) as [_ Hreg Hact _].
  split; [done|]. split.
  - intros Hx. by apply Hgone, Hreg.
  - intros Hx. by apply Hgone, Hact.
Qed.

Lemma isType_frame g g' o t : heap g' = heap g → isType g' o t = isType g o t.
Proof. unfold isType. by intros ->. Qed.

Lemma getGroupObjects_frame g g' o :
  heap g' = heap g → getGroupObjects g' o = getGroupObjects g o.
Proof. unfold getGroupObjects. by intros ->. Qed.

Lemma isEmpty_frame g g' o : heap g' = heap g → isEmpty g' o = isEmpty g o.
Proof. unfold isEmpty. intros H. by rewrite (getGroupObjects_frame g g' o H). Qed.


Lemma remove_add_remove ms g :
  wf g → remove ms (add ms (remove ms g)) = remove ms g.
Proof.
  intros Hwf. apply remove_add_cancel. intros m Hm. by apply remove_clean.
Qed.

Lemma remove_registry_keeps ms g t :
  t ∉ ms → t ∈ _objects g → t ∈ _objects (remove ms g).
Proof.
  revert g. induction ms as [|m ms IH]; intros g Hn Ht; [done|].
  rewrite remove_cons. apply IH; [set_solver|].
  unfold remove1. destruct (contains g m); [|done]. cbn.
  destruct (decide _); cbn; set_solver.
Qed.

Lemma add_registers ms g t :
  t ∈ ms → isType g t "cropzone" = false → t ∈ _objects (add ms g).
Proof.
  revert g. induction ms as [|m ms IH]; intros g Hin Hcz; [by inversion Hin|].
  rewrite add_cons. destruct (decide (t = m)) as [->|Hne].
  - apply (add_registry ms (add1 g m)). unfold add1, _onObjectAdded.
    rewrite (isType_frame g) by done. rewrite Hcz. cbn. set_solver.
  - apply IH; [set_solver|]. rewrite (isType_frame g); [done|].
    apply (add1_frame g m).
Qed.

(** A registered object stays registered over a removal of [ms] followed
    by putting [ms] back. *)
Lemma add_remove_registered ms g t :
  wf g → t ∈ _objects g → t ∈ _objects (add ms (remove ms g)).
Proof.
  intros Hwf Ht. destruct (decide (t ∈ ms)) as [Hin|Hn].
  - apply add_registers; [done|].
    rewrite (isType_frame g); [by apply Hwf|]. apply (remove_frame ms g).
  - apply (add_registry ms (remove ms g)). by apply remove_registry_keeps.
Qed.

End Fabric_facts.

(** ** The commands *)

Section Command_facts.
Import Fabric.
#[local] Arguments Graphics.getObject : simpl never.

Lemma getObject_Some g id t :
  Graphics.getObject g id = Some t ↔ id = VNum t ∧ t ∈ _objects g.
Proof.
  unfold Graphics.getObject. destruct id; try (split; [done|by intros [? _]]).
  destruct (decide _); split; try done.
  - intros [= ->]. done.
  - intros [[= ->] _]. done.
  - intros [[= ->] ?]. done.
Qed.

Lemma not_isEmpty g t : isEmpty g t = false → getGroupObjects g t ≠ [].
Proof. unfold isEmpty. by intros H%bool_decide_eq_false. Qed.

Lemma length_zero_false {A} (l : list A) :
  l ≠ [] → bool_decide (length l = 0) = false.
Proof. intros H. rewrite length_zero_nil. by apply bool_decide_eq_false. Qed.

Lemma discard_remove_activeGroup ms g :
  activeGroup (remove ms (discardActiveGroup g)) = None.
Proof.
  destruct (remove_frame ms (discardActiveGroup g)) as (_&H&_). by rewrite H.
Qed.

(** Removing the members of a group, putting them back and removing them
    again. *)
Lemma group_replay ms g :
  wf g →
  remove ms (discardActiveGroup (add ms (remove ms (discardActiveGroup g))))
  = remove ms (discardActiveGroup g).
Proof.
  intros Hwf. rewrite discardActiveGroup_id.
  - apply remove_add_remove. by apply discardActiveGroup_wf.
  - destruct (add_frame ms (remove ms (discardActiveGroup g))) as (_&H&_).
    rewrite H. apply discard_remove_activeGroup.
Qed.

Lemma removeObject_replays xs :
  replays (newCommand command.removeObject xs).
Proof.
  intros ud g v Hwf Hres. cbn in *.
  unfold command.removeObject_execute, Graphics.removeObjectById in *.
  destruct (Graphics.getObject g (arg 0 xs)) as [t|] eqn:Hget;
    [|by cbn in Hres].
  apply getObject_Some in Hget as [Hid Ht]. rewrite Hid.
  destruct (isType g t "group" && negb (isEmpty g t)) eqn:Hgrp.
  - apply andb_prop in Hgrp as Hgrp'. destruct Hgrp' as [Hty Hne].
    apply negb_true_iff, not_isEmpty in Hne.
    set (ms := getGroupObjects g t) in *.
    rewrite (length_zero_false ms Hne). cbn.
    unfold command.removeObject_undo. rewrite !lookup_insert_eq.
    cbn [res_graphics res_undoData res_outcome].
    set (g1 := remove ms (discardActiveGroup g)).
    assert (Hheap : heap (Graphics.add ms g1) = heap g).
    { unfold Graphics.add.
      destruct (same_frame_trans _ _ _ (remove_frame ms (discardActiveGroup g))
                  (add_frame ms g1)) as (H&_). by rewrite H. }
    assert (Hreg : t ∈ _objects (Graphics.add ms g1)).
    { apply add_remove_registered; [by apply discardActiveGroup_wf|done]. }
    assert (Hget2 : Graphics.getObject (Graphics.add ms g1) (VNum t) = Some t)
      by (by apply getObject_Some).
    rewrite Hget2, (isType_frame g), (isEmpty_frame g), Hgrp by done.
    rewrite (getGroupObjects_frame g) by done. fold ms.
    rewrite (length_zero_false ms Hne).
    cbn [res_graphics res_undoData res_outcome].
    split; [eauto|]. split; [eauto|]. apply group_replay, Hwf.
  - destruct (contains g t) eqn:Hin; [|by cbn in Hres].
    rewrite (length_zero_false [t]) by done.
    unfold command.removeObject_undo.
    cbn [res_graphics res_undoData res_outcome]. rewrite !lookup_insert_eq.
    cbn [res_graphics res_undoData res_outcome].
    change (remove1 g t) with (remove [t] g).
    assert (Hheap : heap (Graphics.add [t] (remove [t] g)) = heap g).
    { unfold Graphics.add.
      destruct (same_frame_trans _ _ _ (remove_frame [t] g)
                  (add_frame [t] (remove [t] g))) as (H&_). by rewrite H. }
    assert (Hreg : t ∈ _objects (Graphics.add [t] (remove [t] g)))
      by (by apply add_remove_registered).
    assert (Hget2 : Graphics.getObject (Graphics.add [t] (remove [t] g))
                      (VNum t) = Some t)
      by (by apply getObject_Some).
    rewrite Hget2, (isType_frame g), (isEmpty_frame g), Hgrp by done.
    assert (Hin2 : contains (Graphics.add [t] (remove [t] g)) t = true).
    { unfold contains. apply bool_decide_eq_true.
      unfold Graphics.add. rewrite canvas_add. set_solver. }
    rewrite Hin2, (length_zero_false [t]) by done.
    cbn [res_graphics res_undoData res_outcome].
    split; [eauto|]. split; [eauto|].
    change (remove1 (Graphics.add [t] (remove [t] g)) t)
      with (remove [t] (add [t] (remove [t] g))).
    by apply remove_add_remove.
Qed.


Lemma canvas_remove_all g : canvas_objects (remove (canvas_objects g) g) = [].
Proof. rewrite canvas_remove. apply remove_all_canvas. Qed.

Lemma clear_replay g :
  wf g →
  let ms := canvas_objects g in
  canvas_objects (add ms (remove ms g)) = ms
  ∧ remove ms (add ms (remove ms g)) = remove ms g.
Proof.
  intros Hwf ms. split; [|by apply remove_add_remove].
  rewrite canvas_add. unfold ms. by rewrite canvas_remove_all.
Qed.

Lemma clearObjects_replays xs :
  replays (newCommand command.clearObjects xs).
Proof.
  intros ud g v Hwf Hres. cbn in *.
  unfold command.clearObjects_execute, command.clearObjects_undo,
    Graphics.removeAll, Graphics.add in *.
  cbn [res_graphics res_undoData res_outcome]. rewrite !lookup_insert_eq.
  cbn [res_graphics res_undoData res_outcome].
  destruct (clear_replay g Hwf) as [Hc Hr]. rewrite Hc.
  split; [eauto|]. split; [eauto|]. exact Hr.
Qed.

Lemma set_props_absorb props saved ob :
  (∀ k, props !! k = None → saved !! k = None) →
  Graphics.set_props props
    (Graphics.set_props saved (Graphics.set_props props ob))
  = Graphics.set_props props ob.
Proof.
  intros Hdom. unfold Graphics.set_props. cbn. f_equal.
  apply map_eq. intros k. rewrite !lookup_union.
  destruct (props !! k) eqn:Hk; cbn.
  - by destruct (saved !! k), (oprops ob !! k).
  - rewrite (Hdom k Hk). cbn. by destruct (oprops ob !! k).
Qed.

Lemma setObjectProperties_replay t props saved g :
  (∀ k, props !! k = None → saved !! k = None) →
  Graphics.setObjectProperties t props
    (Graphics.setObjectProperties t saved
       (Graphics.setObjectProperties t props g))
  = Graphics.setObjectProperties t props g.
Proof.
  intros Hdom. unfold Graphics.setObjectProperties.
  apply graphics_ext; cbn; try done.
  apply map_eq. intros i.
  destruct (decide (t = i)) as [->|Hne]; [|by rewrite !lookup_alter_ne].
  rewrite !lookup_alter_eq.
  destruct (heap g !! i); cbn; [|done]. f_equal. by apply set_props_absorb.
Qed.

Lemma setObjectProperties_replays xs :
  replays (newCommand command.setObjectProperties xs).
Proof.
  intros ud g v Hwf Hres.
  cbn [execute undo args newCommand a_execute a_undo
       command.setObjectProperties] in *.
  unfold command.setObjectProperties_execute,
    command.setObjectProperties_undo in *.
  destruct (Graphics.getObject g (arg 0 xs)) as [t|] eqn:Hget;
    [|by cbn in Hres].
  cbn [res_graphics res_undoData res_outcome].
  apply getObject_Some in Hget as [Hid Ht].
  assert (Hget1 : ∀ p g', _objects g' = _objects g →
            Graphics.getObject (Graphics.setObjectProperties t p g')
              (arg 0 xs) = Some t).
  { intros p g' Hg'. apply getObject_Some. split; [done|]. cbn. by rewrite Hg'. }
  rewrite Hget1 by done. cbn [res_graphics res_undoData res_outcome].
  rewrite Hget1 by done. cbn [res_graphics res_undoData res_outcome].
  split; [eauto|]. split; [eauto|].
  rewrite lookup_insert_eq. cbn [default from_option id props_of].
  apply setObjectProperties_replay. intros k Hk.
  by rewrite map_lookup_imap, Hk.
Qed.

Lemma contains_add1 g o : contains (add1 g o) o = true.
Proof.
  apply bool_decide_eq_true. change (add1 g o) with (add [o] g).
  rewrite canvas_add. set_solver.
Qed.

Lemma add1_cancel g o :
  wf g → contains g o = false → remove1 (add1 g o) o = g.
Proof.
  intros Hwf Hn. apply bool_decide_eq_false in Hn.
  change (remove [o] (add [o] g) = g). apply remove_add_cancel.
  intros m ->%list_elem_of_singleton. split; [done|]. split.
  - intros H. by apply Hn, (wf_registered g Hwf).
  - intros H. by apply Hn, (wf_active g Hwf).
Qed.

Lemma createAddObjectCommand_replays object :
  replays (factory.createAddObjectCommand object).
Proof.
  intros ud g v Hwf Hres. cbn in *.
  destruct (contains g object) eqn:Hin; [by cbn in Hres|]. cbn.
  rewrite contains_add1. cbn. rewrite add1_cancel, Hin by done. cbn.
  eauto.
Qed.

Lemma createClearCommand_replays : replays factory.createClearCommand.
Proof.
  intros ud g v Hwf Hres. cbn -[lookup insert] in *.
  destruct (bool_decide (length (canvas_objects g) = 0)) eqn:Hlen;
    [by cbn in Hres|].
  cbn [negb res_graphics res_undoData res_outcome].
  rewrite lookup_insert_eq. cbn [default from_option id list_of].
  destruct (clear_replay g Hwf) as [Hc Hr]. rewrite Hc, Hlen.
  cbn [negb res_graphics res_undoData res_outcome]. eauto.
Qed.

Lemma createRemoveCommand_replays target :
  replays (factory.createRemoveCommand target).
Proof.
  intros ud g v Hwf Hres. cbn -[lookup insert] in *.
  destruct target as [t|]; [|by cbn in Hres].
  destruct (isType g t "group" && negb (isEmpty g t)) eqn:Hgrp.
  - cbn [res_graphics res_undoData res_outcome].
    rewrite lookup_insert_eq. cbn [default from_option id list_of].
    set (ms := getGroupObjects g t) in *.
    set (g1 := remove ms (discardActiveGroup g)).
    assert (Hheap : heap (add ms g1) = heap g).
    { destruct (same_frame_trans _ _ _ (remove_frame ms (discardActiveGroup g))
                  (add_frame ms g1)) as (H&_). by rewrite H. }
    rewrite (isType_frame g), (isEmpty_frame g), Hgrp by done.
    rewrite (getGroupObjects_frame g) by done. fold ms.
    cbn [res_graphics res_undoData res_outcome].
    split; [eauto|]. split; [eauto|]. apply group_replay, Hwf.
  - destruct (contains g t) eqn:Hin; [|by cbn in Hres].
    cbn [res_graphics res_undoData res_outcome].
    rewrite lookup_insert_eq. cbn [default from_option id list_of].
    change (remove1 g t) with (remove [t] g).
    assert (Hheap : heap (add [t] (remove [t] g)) = heap g).
    { destruct (same_frame_trans _ _ _ (remove_frame [t] g)
                  (add_frame [t] (remove [t] g))) as (H&_). by rewrite H. }
    rewrite (isType_frame g), (isEmpty_frame g), Hgrp by done.
    assert (Hin2 : contains (add [t] (remove [t] g)) t = true).
    { unfold contains. apply bool_decide_eq_true.
      rewrite canvas_add. set_solver. }
    rewrite Hin2. cbn [res_graphics res_undoData res_outcome].
    split; [eauto|]. split; [eauto|].
    change (remove1 (add [t] (remove [t] g)) t)
      with (remove [t] (add [t] (remove [t] g))).
    by apply remove_add_remove.
Qed.

End Command_facts.

(** ** Commands run by the invoker *)

Lemma command_module_replays c : command_module c → replays c.
Proof.
  destruct 1.
  - apply removeObject_replays.
  - apply clearObjects_replays.
  - apply setObjectProperties_replays.
Qed.

Lemma factory_command_replays c : factory_command c → replays c.
Proof.
  destruct 1.
  - apply createAddObjectCommand_replays.
  - apply createClearCommand_replays.
  - apply createRemoveCommand_replays.
Qed.

(** What a resolved execute, undo and redo leave behind. *)
Lemma execute_resolved w c v w1 :
  _isLocked w = false →
  Invoker.await (Invoker.execute c w) = (Resolved v, w1) →
  let r := execute c (args c) (undoData c) (_graphics w) in
  res_outcome r = Resolved v
  ∧ _undoStack w1 = _undoStack w ++ [set_undoData (res_undoData r) c]
  ∧ _isLocked w1 = false
  ∧ _graphics w1 = res_graphics r.
Proof.
  intros Hl. destruct w as [us rs lk g ev]; cbn in Hl; subst lk.
  unfold Invoker.execute, Invoker._invokeExecution, Invoker.start.
  cbn [_isLocked _graphics Invoker.lock Invoker.set_isLocked].
  destruct (res_outcome _) eqn:Hres; cbn; [|done|done].
  unfold Invoker.settle; cbn. intros [= -> <-].
  unfold Invoker.clearRedoStack, Invoker.isEmptyRedoStack.
  destruct (executeCallback c), rs; cbn; done.
Qed.

Lemma undo_resolved w l c v :
  _isLocked w = false → _undoStack w = l ++ [c] →
  let r := undo c (args c) (undoData c) (_graphics w) in
  res_outcome r = Resolved v →
  ∃ w', Invoker.await (Invoker.undo w) = (Resolved v, w')
        ∧ _redoStack w' = _redoStack w ++ [set_undoData (res_undoData r) c]
        ∧ _isLocked w' = false
        ∧ _graphics w' = res_graphics r.
Proof.
  intros Hl Hs r Hres. subst r.
  destruct w as [us rs lk g ev]; cbn in Hl, Hs, Hres; subst us lk.
  cbn [_graphics _redoStack].
  unfold Invoker.undo. cbn [_undoStack]. rewrite pop_snoc. cbn.
  unfold Invoker.isEmptyUndoStack; cbn.
  unfold Invoker._invokeUndo, Invoker.start.
  destruct (bool_decide _); cbn; rewrite Hres; cbn;
    (eexists; split; [reflexivity|]); by destruct (undoCallback c).
Qed.

Lemma redo_resolved w l c v :
  _isLocked w = false → _redoStack w = l ++ [c] →
  let r := execute c (args c) (undoData c) (_graphics w) in
  res_outcome r = Resolved v →
  ∃ w', Invoker.await (Invoker.redo w) = (Resolved v, w')
        ∧ _isLocked w' = false
        ∧ _graphics w' = res_graphics r.
Proof.
  intros Hl Hs r Hres. subst r.
  destruct w as [us rs lk g ev]; cbn in Hl, Hs, Hres; subst rs lk.
  cbn [_graphics _undoStack].
  unfold Invoker.redo. cbn [_redoStack]. rewrite pop_snoc. cbn.
  unfold Invoker.isEmptyRedoStack; cbn.
  unfold Invoker._invokeExecution, Invoker.start.
  destruct (bool_decide _); cbn; rewrite Hres; cbn;
    (eexists; split; [reflexivity|]); by destruct (executeCallback c).
Qed.

(** C1 (amended).  For the command modules that work on objects which
    exist already (removeObject, clearObjects, setObjectProperties), run on a
    well-formed store by an unlocked invoker: when execute(C) has resolved,
    the following undo() resolves, the following redo() resolves, and the
    Graphics state after the redo is identical to the state right after the
    original execute(C).  The commands the factory builds for add-object,
    clear and remove have the same round trip at the level of their actions:
    forward, inverse, forward again all resolve, and the second forward
    leaves the state the first one left. *)
Theorem roundtrip_existing :
  (∀ (w : World) (c : Command) (v : Value) (w1 : World),
     command_module c →
     _isLocked w = false →
     wf (_graphics w) →
     Invoker.await (Invoker.execute c w) = (Resolved v, w1) →
     ∃ v2 w2 v3 w3,
       Invoker.await (Invoker.undo w1) = (Resolved v2, w2)
       ∧ Invoker.await (Invoker.redo w2) = (Resolved v3, w3)
       ∧ _graphics w3 = _graphics w1)
  ∧ (∀ c : Command, factory_command c → replays c).
Proof.
  split; [|apply factory_command_replays].
  intros w c v w1 Hc Hl Hwf Hex.
  destruct (execute_resolved w c v w1 Hl Hex) as (Hr1 & Hus & Hl1 & Hg1).
  destruct (command_module_replays c Hc (undoData c) (_graphics w) v Hwf Hr1)
    as ([v2 Hr2] & [v3 Hr3] & Hg).
  set (r1 := execute c (args c) (undoData c) (_graphics w)) in *.
  set (c1 := set_undoData (res_undoData r1) c) in *.
  destruct (undo_resolved w1 (_undoStack w) c1 v2 Hl1 Hus)
    as (w2 & Hu & Hrs & Hl2 & Hg2).
  { cbn. by rewrite Hg1. }
  cbn in Hrs, Hg2. rewrite Hg1 in Hrs, Hg2.
  set (r2 := undo c (args c) (res_undoData r1) (res_graphics r1)) in *.
  destruct (redo_resolved w2 (_redoStack w1)
              (set_undoData (res_undoData r2) c1) v3 Hl2 Hrs)
    as (w3 & Hre & Hl3 & Hg3).
  { cbn. by rewrite Hg2. }
  cbn in Hg3. rewrite Hg2 in Hg3.
  exists v2, w2, v3, w3. split; [done|]. split; [done|]. congruence.
Qed.

Lemma two_objects_wf : wf two_objects.
Proof.
  constructor; cbn.
  - repeat constructor; set_solver.
  - set_solver.
  - done.
  - intros o Ho. assert (o = 1 ∨ o = 2) as [-> | ->] by set_solver; reflexivity.
Qed.

Lemma roundtrip_existing_witness :
  (let c := newCommand command.removeObject [VNum 1] in
   let w1 := (Invoker.await (Invoker.execute c (Invoker.new two_objects))).2 in
   ∃ v2 w2 v3 w3,
     Invoker.await (Invoker.undo w1) = (Resolved v2, w2)
     ∧ Invoker.await (Invoker.redo w2) = (Resolved v3, w3)
     ∧ _graphics w3 = _graphics w1)
  ∧ (let c := factory.createAddObjectCommand 3 in
     let r1 := execute c [] ∅ two_objects in
     let r2 := undo c [] (res_undoData r1) (res_graphics r1) in
     let r3 := execute c [] (res_undoData r2) (res_graphics r2) in
     res_graphics r3 = res_graphics r1).
Proof.
  destruct roundtrip_existing as [Hmodule Hfactory]. split.
  - apply (Hmodule (Invoker.new two_objects)
             (newCommand command.removeObject [VNum 1]) VUndefined).
    + constructor.
    + reflexivity.
    + apply two_objects_wf.
    + vm_compute. reflexivity.
  - apply (Hfactory (factory.createAddObjectCommand 3) (factory_addObject 3)
             ∅ two_objects (VObj 3) two_objects_wf).
    vm_compute. reflexivity.
Defined.

(** C1 fails for a command that builds its object in the forward action.
    addImageObject, executed on an editor with a background image, puts a
    new image object (stamp 1) on the canvas; undo() takes it off; redo()
    runs the forward action again, which builds another object (stamp 2).
    All three calls resolve, and the state after redo() is not the state
    after execute(). *)
Lemma addImageObject_not_replayed :
  let c := newCommand command.addImageObject [VStr "star.png"] in
  let r1 := Invoker.await (Invoker.execute c (Invoker.new image_graphics)) in
  let r2 := Invoker.await (Invoker.undo r1.2) in
  let r3 := Invoker.await (Invoker.redo r2.2) in
  (∃ v1 v2 v3, r1.1 = Resolved v1 ∧ r2.1 = Resolved v2 ∧ r3.1 = Resolved v3)
  ∧ canvas_objects (_graphics r1.2) = [1]
  ∧ canvas_objects (_graphics r3.2) = [2]
  ∧ _graphics r3.2 ≠ _graphics r1.2.
Proof.
  cbv zeta. split; [|split; [|split]].
  - do 3 eexists. split; [|split]; vm_compute; reflexivity.
  - vm_compute. reflexivity.
  - vm_compute. reflexivity.
  - intros H. apply (f_equal canvas_objects) in H. vm_compute in H.
    discriminate H.
Qed.

(** C6 fails for load-image.  The factory's load-image command clears the
    canvas before it asks the loader for the image; when the image cannot be
    loaded the action rejects, and the two objects that were on the canvas
    are gone. *)
Lemma loadImage_failure_clears_canvas :
  let c := factory.createLoadImageCommand
             "photo" (Some (mkFImage "missing.png" false)) in
  let r := execute c (args c) (undoData c) two_objects in
  res_outcome r = Rejected VUndefined
  ∧ canvas_objects two_objects = [1; 2]
  ∧ canvas_objects (res_graphics r) = []
  ∧ res_graphics r ≠ two_objects.
Proof.
  cbv zeta. split; [|split; [|split]]; try (vm_compute; reflexivity).
  intros H. apply (f_equal canvas_objects) in H. vm_compute in H.
  discriminate H.
Qed.

(** C6 (amended).  For the commands that work on objects which exist
    already (removeObject, clearObjects, setObjectProperties and the
    factory's addObject, clear and remove): if the forward action or the
    inverse action rejects, the Graphics state is exactly the state the
    action started from.  These commands look before they touch: whatever
    rejects has not mutated anything. *)
Theorem failed_action_leaves_store (c : Command) (ud : UndoData)
    (g : Graphics) :
  on_existing_objects c →
  (∀ reason, res_outcome (execute c (args c) ud g) = Rejected reason →
             res_graphics (execute c (args c) ud g) = g)
  ∧ (∀ reason, res_outcome (undo c (args c) ud g) = Rejected reason →
               res_graphics (undo c (args c) ud g) = g).
Proof.
  intros [[xs|xs|xs]|[object| |target]];
    cbn [execute undo args newCommand a_execute a_undo
         command.removeObject command.clearObjects
         command.setObjectProperties factory.createAddObjectCommand
         factory.createClearCommand factory.createRemoveCommand].
  - split; intros reason.
    + unfold command.removeObject_execute, Graphics.removeObjectById.
      destruct (Graphics.getObject g (arg 0 xs)) as [t|]; [|done].
      destruct (Fabric.isType g t "group" && negb (Fabric.isEmpty g t)) eqn:Hgrp.
      * apply andb_prop in Hgrp as [_ Hne].
        apply negb_true_iff, not_isEmpty in Hne.
        by rewrite (length_zero_false _ Hne).
      * by destruct (Fabric.contains g t).
    + unfold command.removeObject_undo.
      by destruct (ud !! "objects") as [[]|].
  - split; intros reason; [done|].
    unfold command.clearObjects_undo. by destruct (ud !! "objects") as [[]|].
  - split; intros reason.
    + unfold command.setObjectProperties_execute.
      by destruct (Graphics.getObject g (arg 0 xs)).
    + unfold command.setObjectProperties_undo.
      by destruct (Graphics.getObject g (arg 0 xs)).
  - split; intros reason; by destruct (Fabric.contains g object).
  - split; intros reason; [|done].
    by destruct (bool_decide (length (canvas_objects g) = 0)).
  - split; intros reason; [|done]. destruct target as [t|]; [|done].
    destruct (Fabric.isType g t "group" && negb (Fabric.isEmpty g t)); [done|].
    by destruct (Fabric.contains g t).
Qed.

Lemma failed_action_leaves_store_witness :
  res_graphics (execute (factory.createAddObjectCommand 1) [] ∅ two_objects)
    = two_objects
  ∧ res_graphics (undo (factory.createAddObjectCommand 3) [] ∅ two_objects)
    = two_objects.
Proof.
  destruct (failed_action_leaves_store (factory.createAddObjectCommand 1) ∅
              two_objects (or_intror (factory_addObject 1))) as [Hexec _].
  destruct (failed_action_leaves_store (factory.createAddObjectCommand 3) ∅
              two_objects (or_intror (factory_addObject 3))) as [_ Hundo].
  split.
  - apply (Hexec VUndefined). vm_compute. reflexivity.
  - apply (Hundo VUndefined). vm_compute. reflexivity.
Defined.







(** C8 fails for the clearObjects command module: on an empty canvas its
    forward action resolves; it has no rejection at all. *)
Lemma clearObjects_resolves_when_empty :
  canvas_objects demo_graphics = []
  ∧ res_outcome (command.clearObjects_execute [] ∅ demo_graphics)
    = Resolved VUndefined
  ∧ ¬ ∃ reason, res_outcome (command.clearObjects_execute [] ∅ demo_graphics)
                = Rejected reason.
Proof.
  split; [reflexivity|]. split; [reflexivity|]. by intros [reason H].
Qed.

Lemma remove_keeps_images os g :
  backgroundImage (Fabric.remove os g) = backgroundImage g
  ∧ canvasImage (Fabric.remove os g) = canvasImage g
  ∧ imageName (Fabric.remove os g) = imageName g.
Proof. destruct (remove_frame os g) as (_&_&?&?&?&_). by repeat split. Qed.

(** C8 (amended).  Both clear-all commands snapshot the full object list,
    take every object off the canvas and leave the background image and the
    canvas image alone; the inverse puts the whole snapshot back.  On an
    already empty list the factory's createClearCommand rejects (without a
    reason) and changes nothing, whereas the clearObjects command module
    resolves, with an empty snapshot. *)
Theorem clear_all (g : Graphics) (ud : UndoData) :
  let objs := canvas_objects g in
  let f := execute factory.createClearCommand [] ud g in
  let f' := undo factory.createClearCommand [] (res_undoData f)
                 (res_graphics f) in
  let m := command.clearObjects_execute [] ud g in
  let m' := command.clearObjects_undo [] (res_undoData m) (res_graphics m) in
  (res_undoData f !! "store" = Some (VList objs)
   ∧ res_outcome f = (if bool_decide (objs = [])
                      then Rejected VUndefined else Resolved VUndefined)
   ∧ res_graphics f = (if bool_decide (objs = [])
                       then g else Fabric.remove objs g)
   ∧ canvas_objects (res_graphics f) = []
   ∧ backgroundImage (res_graphics f) = backgroundImage g
   ∧ canvasImage (res_graphics f) = canvasImage g
   ∧ res_outcome f' = Resolved VUndefined
   ∧ canvas_objects (res_graphics f') = objs)
  ∧ (res_undoData m !! "objects" = Some (VList objs)
     ∧ res_outcome m = Resolved VUndefined
     ∧ res_graphics m = Fabric.remove objs g
     ∧ canvas_objects (res_graphics m) = []
     ∧ backgroundImage (res_graphics m) = backgroundImage g
     ∧ canvasImage (res_graphics m) = canvasImage g
     ∧ res_outcome m' = Resolved VUndefined
     ∧ canvas_objects (res_graphics m') = objs).
Proof.
  intros objs f f' m m'.
  destruct (remove_keeps_images objs g) as (Hbg & Hci & _).
  split.
  - unfold f', f. cbn -[lookup insert].
    rewrite length_zero_nil. fold objs.
    destruct (bool_decide_reflect (objs = [])) as [He|Hne];
      cbn [negb res_graphics res_undoData res_outcome];
      rewrite !lookup_insert_eq; cbn [default from_option id list_of];
      rewrite canvas_add.
    + unfold objs in He. rewrite He. repeat (split; [reflexivity|]). reflexivity.
    + unfold objs in *. rewrite canvas_remove_all.
      repeat (split; [done|]). done.
  - unfold m', m, command.clearObjects_execute, command.clearObjects_undo,
      Graphics.removeAll, Graphics.add.
    cbn [res_graphics res_undoData res_outcome]. fold objs.
    rewrite !lookup_insert_eq. cbn [res_graphics res_undoData res_outcome].
    rewrite canvas_add. unfold objs in *. rewrite canvas_remove_all.
    repeat (split; [done|]). done.
Qed.

(** ** Scenarios of the command test suite, replayed *)

(** 'can register custom command': execute resolves with what the forward
    action resolved with, and the command is on the undo stack. *)
Example spec_custom_command :
  let r := Invoker.await (Invoker.execute demo_command
                            (Invoker.new demo_graphics)) in
  r.1 = Resolved (VStr "testCommand")
  ∧ length (_undoStack r.2) = 1
  ∧ fired r.2 = [UNDO_STACK_CHANGED 1].
Proof. vm_compute. by repeat split. Qed.

(** clearCommand: 'should clear all objects', '"undo()" restore all
    objects'. *)
Example spec_clear_and_undo :
  let c := newCommand command.clearObjects [] in
  let r1 := Invoker.await (Invoker.execute c (Invoker.new two_objects)) in
  let r2 := Invoker.await (Invoker.undo r1.2) in
  canvas_objects (_graphics r1.2) = []
  ∧ canvas_objects (_graphics r2.2) = [1; 2].
Proof. vm_compute. by split. Qed.

(** removeCommand: 'should remove an object', 'should remove objects
    group', '"undo()" should restore the removed objects (group)'. *)
Example spec_remove_and_undo :
  let single := newCommand command.removeObject [VNum 1] in
  let group := newCommand command.removeObject [VNum 3] in
  let r1 := Invoker.await (Invoker.execute single (Invoker.new grouped)) in
  let r2 := Invoker.await (Invoker.execute group (Invoker.new grouped)) in
  let r3 := Invoker.await (Invoker.undo r2.2) in
  Graphics.contains (_graphics r1.2) 1 = false
  ∧ Graphics.contains (_graphics r2.2) 1 = false
  ∧ Graphics.contains (_graphics r2.2) 2 = false
  ∧ Graphics.contains (_graphics r3.2) 1 = true
  ∧ Graphics.contains (_graphics r3.2) 2 = true.
Proof. vm_compute. by repeat split. Qed.

(** * Further properties of the code *)

(** ** More of the invoker: redo, failing inverse actions, stuck actions *)

Lemma redo_locked w :
  _isLocked w = true →
  ∃ message, Invoker.redo w = (Settled (Rejected (VStr message)), w).
Proof.
  destruct w as [us rs lk g ev]; cbn [_isLocked]; intros ->.
  destruct (decide (rs = [])) as [->|Hne].
  - eexists. reflexivity.
  - destruct (stack_snoc_inv rs Hne) as (l & c & ->).
    unfold Invoker.redo. cbn [_redoStack]. rewrite pop_snoc. eexists. reflexivity.
Qed.

Lemma undo_locked w :
  _isLocked w = true →
  ∃ message, Invoker.undo w = (Settled (Rejected (VStr message)), w).
Proof.
  destruct w as [us rs lk g ev]; cbn [_isLocked]; intros ->.
  destruct (decide (us = [])) as [->|Hne].
  - eexists. reflexivity.
  - destruct (stack_snoc_inv us Hne) as (l & c & ->).
    unfold Invoker.undo. cbn [_undoStack]. rewrite pop_snoc. eexists. reflexivity.
Qed.

(** X1.  redo() mirrors undo(): with an empty redo stack it rejects with the
    redo message (the lock message appended when the invoker is locked) and
    changes nothing; with a command on the redo stack and the invoker
    locked, the popped command is pushed back silently, the world is
    exactly what it was, and the promise rejects with the redo message and
    the lock message combined. *)
Theorem redo_rejects (w : World) :
  (_redoStack w = [] →
     ∃ message,
       Invoker.redo w = (Settled (Rejected (VStr message)), w)
       ∧ String.prefix rejectMessages.redo message = true
       ∧ (_isLocked w = false → message = rejectMessages.redo))
  ∧ (_redoStack w ≠ [] → _isLocked w = true →
     Invoker.redo w =
       (Settled (Rejected (VStr (rejectMessages.redo +:+ " Because "
                                 +:+ rejectMessages.isLock))), w)).
Proof.
  destruct w as [us rs lk g ev]; cbn [_redoStack _isLocked]; split.
  - intros ->. destruct lk; eexists; (split; [reflexivity|]); by split.
  - intros Hne ->. destruct (stack_snoc_inv rs Hne) as (l & c & ->).
    unfold Invoker.redo. cbn [_redoStack]. by rewrite pop_snoc.
Qed.

Lemma redo_rejects_witness :
  (∃ message,
     Invoker.redo (Invoker.new demo_graphics)
       = (Settled (Rejected (VStr message)), Invoker.new demo_graphics)
     ∧ String.prefix rejectMessages.redo message = true
     ∧ (false = false → message = rejectMessages.redo))
  ∧ Invoker.redo (mkWorld [] [demo_command] true demo_graphics [])
    = (Settled (Rejected (VStr (rejectMessages.redo +:+ " Because "
                                +:+ rejectMessages.isLock))),
       mkWorld [] [demo_command] true demo_graphics []).
Proof.
  split.
  - apply (redo_rejects (Invoker.new demo_graphics)). reflexivity.
  - apply (redo_rejects (mkWorld [] [demo_command] true demo_graphics []));
      [discriminate | reflexivity].
Defined.

(** X2.  A successful redo() moves the top of the redo stack, with the bag
    its forward action left, onto the undo stack; the rest of the redo stack
    stays (redo, unlike execute, does not clear it); the invoker ends
    unlocked.  It fires a redo-stack event only when the pop empties the
    redo stack, then the undo-stack event with the new length, then the
    command's execute callback. *)
Theorem redo_moves_command (w : World) (l : list Command) (c : Command)
    (value : Value) :
  _isLocked w = false →
  _redoStack w = l ++ [c] →
  res_outcome (execute c (args c) (undoData c) (_graphics w)) = Resolved value →
  let r := execute c (args c) (undoData c) (_graphics w) in
  ∃ w', Invoker.await (Invoker.redo w) = (Resolved value, w')
        ∧ _redoStack w' = l
        ∧ _undoStack w' = _undoStack w ++ [set_undoData (res_undoData r) c]
        ∧ _isLocked w' = false
        ∧ _graphics w' = res_graphics r
        ∧ fired w' =
            fired w
            ++ (if bool_decide (l = []) then [REDO_STACK_CHANGED 0] else [])
            ++ [UNDO_STACK_CHANGED (S (length (_undoStack w)))]
            ++ (match executeCallback c with
                | Some cb => [CALLBACK cb value]
                | None => []
                end).
Proof.
  intros Hlock Hstack Hres r. subst r.
  destruct w as [us rs lk g ev]; simpl in *; subst rs lk.
  unfold Invoker.redo. cbn [_redoStack]. rewrite pop_snoc. cbn.
  unfold Invoker.isEmptyRedoStack; cbn. rewrite length_zero_nil.
  unfold Invoker._invokeExecution, Invoker.start.
  destruct (bool_decide (l = [])) eqn:Hl; cbn; rewrite Hres; cbn.
  - apply bool_decide_eq_true in Hl; subst l.
    eexists; split; [reflexivity|].
    repeat (split; [by destruct (executeCallback c)|]).
    destruct (executeCallback c); cbn; rewrite ?length_app; cbn;
      rewrite <- ?app_assoc; cbn; repeat f_equal; lia.
  - eexists; split; [reflexivity|].
    repeat (split; [by destruct (executeCallback c)|]).
    destruct (executeCallback c); cbn; rewrite ?length_app; cbn;
      rewrite <- ?app_assoc; cbn; repeat f_equal; lia.
Qed.

Lemma redo_moves_command_witness :
  ∃ w', Invoker.await
          (Invoker.redo (mkWorld [] [demo_command; demo_command] false
                                 demo_graphics []))
        = (Resolved (VStr "testCommand"), w')
        ∧ _redoStack w' = [demo_command]
        ∧ length (_undoStack w') = 1
        ∧ fired w' = [UNDO_STACK_CHANGED 1].
Proof.
  destruct (redo_moves_command
              (mkWorld [] [demo_command; demo_command] false demo_graphics [])
              [demo_command] demo_command (VStr "testCommand")
              eq_refl eq_refl eq_refl)
    as (w' & H1 & H2 & H3 & _ & _ & H6).
  exists w'. split; [exact H1|]. split; [exact H2|].
  split; [by rewrite H3|exact H6].
Defined.

(** X3.  When the inverse action of undo(), or the forward action of redo(),
    rejects, the command that was popped is on neither stack afterwards: the
    stack it came from is one shorter and the other one is as before.  The
    invoker is unlocked again, the caller gets the reason of the action, and
    the only event is the one announcing that the popped stack fell empty. *)
Theorem failed_undo_redo_drops_command (w : World) (l : list Command)
    (c : Command) (reason : Value) :
  _isLocked w = false →
  (_undoStack w = l ++ [c] →
   res_outcome (undo c (args c) (undoData c) (_graphics w)) = Rejected reason →
   ∃ w', Invoker.await (Invoker.undo w) = (Rejected reason, w')
         ∧ _undoStack w' = l
         ∧ _redoStack w' = _redoStack w
         ∧ _isLocked w' = false
         ∧ fired w' = fired w ++ (if bool_decide (l = [])
                                  then [UNDO_STACK_CHANGED 0] else []))
  ∧ (_redoStack w = l ++ [c] →
     res_outcome (execute c (args c) (undoData c) (_graphics w))
       = Rejected reason →
     ∃ w', Invoker.await (Invoker.redo w) = (Rejected reason, w')
           ∧ _redoStack w' = l
           ∧ _undoStack w' = _undoStack w
           ∧ _isLocked w' = false
           ∧ fired w' = fired w ++ (if bool_decide (l = [])
                                    then [REDO_STACK_CHANGED 0] else [])).
Proof.
  intros Hlock. destruct w as [us rs lk g ev]; simpl in *; subst lk. split.
  - intros -> Hres. unfold Invoker.undo. cbn [_undoStack]. rewrite pop_snoc. cbn.
    unfold Invoker.isEmptyUndoStack; cbn. rewrite length_zero_nil.
    unfold Invoker._invokeUndo, Invoker.start.
    destruct (bool_decide (l = [])) eqn:Hl; cbn; rewrite Hres; cbn.
    + apply bool_decide_eq_true in Hl; subst l.
      eexists; split; [reflexivity|]. by repeat split.
    + eexists; split; [reflexivity|]. repeat split. by rewrite app_nil_r.
  - intros -> Hres. unfold Invoker.redo. cbn [_redoStack]. rewrite pop_snoc. cbn.
    unfold Invoker.isEmptyRedoStack; cbn. rewrite length_zero_nil.
    unfold Invoker._invokeExecution, Invoker.start.
    destruct (bool_decide (l = [])) eqn:Hl; cbn; rewrite Hres; cbn.
    + apply bool_decide_eq_true in Hl; subst l.
      eexists; split; [reflexivity|]. by repeat split.
    + eexists; split; [reflexivity|]. repeat split. by rewrite app_nil_r.
Qed.

Lemma failed_undo_redo_drops_command_witness :
  ∃ w', Invoker.await
          (Invoker.redo (mkWorld [demo_command] [demo_command; failing_command]
                                 false demo_graphics []))
        = (Rejected (VStr "no"), w')
        ∧ _redoStack w' = [demo_command]
        ∧ _undoStack w' = [demo_command]
        ∧ _isLocked w' = false
        ∧ fired w' = [].
Proof.
  exact (proj2 (failed_undo_redo_drops_command
                  (mkWorld [demo_command] [demo_command; failing_command]
                           false demo_graphics [])
                  [demo_command] failing_command (VStr "no") eq_refl)
               eq_refl eq_refl).
Defined.

(** X4.  A successful execute() appends the command, carrying the bag its
    action left, to the undo stack and hands the Graphics state of the action
    on.  The events come in a fixed order: the undo-stack event with the new
    length, then the command's execute callback, and only then, if the redo
    stack held anything, the redo-stack event with length 0. *)
Theorem execute_event_order (w : World) (command : Command) (value : Value) :
  _isLocked w = false →
  res_outcome (execute command (args command) (undoData command) (_graphics w))
    = Resolved value →
  let r := execute command (args command) (undoData command) (_graphics w) in
  Invoker.await (Invoker.execute command w)
  = (Resolved value,
     mkWorld (_undoStack w ++ [set_undoData (res_undoData r) command]) []
             false (res_graphics r)
             (fired w
              ++ [UNDO_STACK_CHANGED (S (length (_undoStack w)))]
              ++ (match executeCallback command with
                  | Some cb => [CALLBACK cb value]
                  | None => []
                  end)
              ++ (if bool_decide (_redoStack w = [])
                  then [] else [REDO_STACK_CHANGED 0]))).
Proof.
  intros Hlock Hres r. subst r.
  destruct w as [us rs lk g ev]; simpl in *; subst lk.
  unfold Invoker.execute, Invoker._invokeExecution, Invoker.start; cbn.
  rewrite Hres; cbn.
  unfold Invoker.clearRedoStack, Invoker.isEmptyRedoStack.
  destruct (executeCallback command); cbn; rewrite length_zero_nil;
    destruct rs;
    unfold Invoker._fireRedoStackChanged, Invoker.set_redoStack, Invoker.fire,
      Invoker.unlock, Invoker._fireUndoStackChanged, Invoker.set_undoStack,
      Invoker.set_graphics, Invoker.lock, Invoker.set_isLocked; cbn;
    rewrite ?length_app, <- ?app_assoc; cbn;
    rewrite ?app_nil_r, ?Nat.add_1_r; reflexivity.
Qed.

Lemma execute_event_order_witness :
  Invoker.await
    (Invoker.execute demo_command
       (mkWorld [demo_command] [demo_command] false demo_graphics []))
  = (Resolved (VStr "testCommand"),
     mkWorld [demo_command; demo_command] [] false demo_graphics
             [UNDO_STACK_CHANGED 2; REDO_STACK_CHANGED 0]).
Proof.
  exact (execute_event_order
           (mkWorld [demo_command] [demo_command] false demo_graphics [])
           demo_command (VStr "testCommand") eq_refl eq_refl).
Defined.

Lemma undo_success_world w l c v :
  let r := undo c (args c) (undoData c) (_graphics w) in
  _isLocked w = false → _undoStack w = l ++ [c] →
  res_outcome r = Resolved v →
  Invoker.await (Invoker.undo w)
  = (Resolved v,
     mkWorld l (_redoStack w ++ [set_undoData (res_undoData r) c]) false
             (res_graphics r)
             (fired w
              ++ (if bool_decide (l = []) then [UNDO_STACK_CHANGED 0] else [])
              ++ [REDO_STACK_CHANGED (S (length (_redoStack w)))]
              ++ (match undoCallback c with
                  | Some cb => [CALLBACK cb v]
                  | None => []
                  end))).
Proof.
  intros r Hlock Hstack Hres. subst r.
  destruct w as [us rs lk g ev]; simpl in *; subst us lk.
  unfold Invoker.undo. cbn [_undoStack]. rewrite pop_snoc. cbn.
  unfold Invoker.isEmptyUndoStack; cbn. rewrite length_zero_nil.
  unfold Invoker._invokeUndo, Invoker.start.
  destruct (bool_decide (l = [])) eqn:Hl; cbn; rewrite Hres; cbn;
    [apply bool_decide_eq_true in Hl; subst l|];
    destruct (undoCallback c); unfold_invoker; cbn;
    rewrite ?length_app, <- ?app_assoc; cbn;
    rewrite ?app_nil_r, ?Nat.add_1_r; reflexivity.
Qed.

Lemma redo_success_world w l c v :
  let r := execute c (args c) (undoData c) (_graphics w) in
  _isLocked w = false → _redoStack w = l ++ [c] →
  res_outcome r = Resolved v →
  Invoker.await (Invoker.redo w)
  = (Resolved v,
     mkWorld (_undoStack w ++ [set_undoData (res_undoData r) c]) l false
             (res_graphics r)
             (fired w
              ++ (if bool_decide (l = []) then [REDO_STACK_CHANGED 0] else [])
              ++ [UNDO_STACK_CHANGED (S (length (_undoStack w)))]
              ++ (match executeCallback c with
                  | Some cb => [CALLBACK cb v]
                  | None => []
                  end))).
Proof.
  intros r Hlock Hstack Hres. subst r.
  destruct w as [us rs lk g ev]; simpl in *; subst rs lk.
  unfold Invoker.redo. cbn [_redoStack]. rewrite pop_snoc. cbn.
  unfold Invoker.isEmptyRedoStack; cbn. rewrite length_zero_nil.
  unfold Invoker._invokeExecution, Invoker.start.
  destruct (bool_decide (l = [])) eqn:Hl; cbn; rewrite Hres; cbn;
    [apply bool_decide_eq_true in Hl; subst l|];
    destruct (executeCallback c); unfold_invoker; cbn;
    rewrite ?length_app, <- ?app_assoc; cbn;
    rewrite ?app_nil_r, ?Nat.add_1_r; reflexivity.
Qed.

(** X5.  undo() followed by redo(), both successful, puts the command back
    where it was: the redo stack is exactly what it was before the undo, and
    the undo stack holds the same commands in the same order, the top one
    now carrying the bag its two actions left. *)
Theorem undo_redo_restores_stacks (w : World) (l : list Command) (c : Command)
    (v v' : Value) :
  let r := undo c (args c) (undoData c) (_graphics w) in
  let r' := execute c (args c) (res_undoData r) (res_graphics r) in
  _isLocked w = false →
  _undoStack w = l ++ [c] →
  res_outcome r = Resolved v →
  res_outcome r' = Resolved v' →
  ∃ w1 w2,
    Invoker.await (Invoker.undo w) = (Resolved v, w1)
    ∧ Invoker.await (Invoker.redo w1) = (Resolved v', w2)
    ∧ _redoStack w2 = _redoStack w
    ∧ _undoStack w2 = l ++ [set_undoData (res_undoData r') c]
    ∧ _isLocked w2 = false
    ∧ _graphics w2 = res_graphics r'.
Proof.
  intros r r' Hlock Hstack Hr Hr'.
  eexists _, _. split; [by apply (undo_success_world w l c v)|].
  split; [by apply (redo_success_world _ (_redoStack w)
                      (set_undoData (res_undoData r) c) v')|].
  by repeat split.
Qed.

Lemma undo_redo_restores_stacks_witness :
  ∃ w1 w2,
    Invoker.await (Invoker.undo (mkWorld [demo_command; demo_command]
                                         [failing_command] false
                                         demo_graphics []))
      = (Resolved VUndefined, w1)
    ∧ Invoker.await (Invoker.redo w1) = (Resolved (VStr "testCommand"), w2)
    ∧ _redoStack w2 = [failing_command]
    ∧ _undoStack w2 = [demo_command; demo_command].
Proof.
  destruct (undo_redo_restores_stacks
              (mkWorld [demo_command; demo_command] [failing_command] false
                       demo_graphics [])
              [demo_command] demo_command VUndefined (VStr "testCommand")
              eq_refl eq_refl eq_refl eq_refl)
    as (w1 & w2 & H1 & H2 & H3 & H4 & _).
  exists w1, w2. repeat (split; [assumption|]). exact H4.
Defined.

Lemma step_locked_idle w c :
  _isLocked w = true → step (mkSystem w [] []) c = mkSystem w [] [].
Proof.
  intros Hlock. destruct c; cbn [step world inflight queued].
  - by apply sync_locked.
  - by apply sync_locked.
  - by apply sync_locked.
  - by rewrite lookup_nil.
  - done.
Qed.

(** X6.  The lock has no time-out.  When the forward action of a command
    gives the invoker nothing to settle on (it throws before it returns a
    promise, or its promise stays pending), execute() leaves the invoker
    locked with nothing in flight, and from then on no sequence of execute,
    undo and redo calls changes anything: stacks, Graphics state and event
    log all stay as that call left them. *)
Theorem stuck_action_locks_forever (w : World) (command : Command)
    (calls : list Call) :
  _isLocked w = false →
  res_outcome (execute command (args command) (undoData command) (_graphics w))
    = Unsettled →
  let s := step (mkSystem w [] []) (callExecute command) in
  inflight s = []
  ∧ _isLocked (world s) = true
  ∧ _undoStack (world s) = _undoStack w
  ∧ _redoStack (world s) = _redoStack w
  ∧ fired (world s) = fired w
  ∧ run s calls = s.
Proof.
  intros Hlock Hres s.
  assert (Hs : s = mkSystem (Invoker.set_graphics
                    (res_graphics (execute command (args command)
                                     (undoData command) (_graphics w)))
                    (Invoker.lock w)) [] []).
  { subst s. cbn [step sync world]. unfold Invoker.execute. rewrite Hlock.
    unfold Invoker._invokeExecution, Invoker.start.
    cbn [Invoker.lock Invoker.set_isLocked _graphics]. by rewrite Hres. }
  rewrite Hs. cbn [inflight world]. repeat (split; [done|]).
  induction calls as [|c calls IH]; [done|].
  unfold run in *. cbn [foldl]. by rewrite step_locked_idle.
Qed.


Lemma stuck_action_locks_forever_witness :
  let c := newCommand command.addImageObject [VStr "star.png"] in
  let s := step (mkSystem (Invoker.new demo_graphics) [] []) (callExecute c) in
  _isLocked (world s) = true
  ∧ run s [callUndo [syncExecute demo_command]; callExecute demo_command;
           callRedo []; reaction] = s.
Proof.
  destruct (stuck_action_locks_forever
              (Invoker.new demo_graphics)
              (newCommand command.addImageObject [VStr "star.png"])
              [callUndo [syncExecute demo_command]; callExecute demo_command;
               callRedo []; reaction]
              eq_refl eq_refl) as (_ & H2 & _ & _ & _ & H6).
  split; [exact H2|exact H6].
Defined.

(** X7.  The older invoke() never rejects once it has started the command:
    called on an unlocked invoker its promise resolves, or stays pending
    with the action.  When it resolves the invoker is unlocked and the redo
    stack is empty, whether the action succeeded or failed; the undo stack
    has grown by the command exactly when the action succeeded.  Called on a
    locked invoker it rejects with the lock message and changes nothing. *)
Theorem legacy_invoke_never_rejects (w : World) (command : Command) :
  (_isLocked w = false →
   let r := legacy.invoke command w in
   (∀ reason, r.1 ≠ Rejected reason)
   ∧ (∀ value, r.1 = Resolved value →
        _isLocked r.2 = false
        ∧ _redoStack r.2 = []
        ∧ (_undoStack r.2 = _undoStack w
           ∨ ∃ c, _undoStack r.2 = _undoStack w ++ [c]
                  ∧ res_outcome (execute command [] (undoData command)
                                   (_graphics w)) = Resolved value))
   ∧ (r.1 = Unsettled → _isLocked r.2 = true))
  ∧ (_isLocked w = true →
     legacy.invoke command w = (Rejected (VStr rejectMessages.isLock), w)).
Proof.
  destruct w as [us rs lk g ev]; cbn [_isLocked]; split; intros ->; [|done].
  unfold legacy.invoke, legacy._invokeExecution; cbn.
  destruct (res_outcome (execute command [] (undoData command) g)) as [v|v|];
    cbn; (split; [done|]); (split; [|done]).
  - intros value [= <-].
    unfold legacy.clearRedoStack, Invoker.isEmptyRedoStack.
    destruct (executeCallback command); destruct rs; cbn;
      (split; [done|]); (split; [done|]); right; eexists; by split.
  - intros value [= <-].
    unfold legacy.clearRedoStack, Invoker.isEmptyRedoStack.
    destruct rs; cbn; (split; [done|]); (split; [done|]); by left.
  - done.
Qed.

Lemma legacy_invoke_never_rejects_witness :
  (∀ reason, (legacy.invoke failing_command
                (mkWorld [] [demo_command] false demo_graphics [])).1
             ≠ Rejected reason)
  ∧ legacy.invoke failing_command
      (mkWorld [] [demo_command] true demo_graphics [])
    = (Rejected (VStr rejectMessages.isLock),
       mkWorld [] [demo_command] true demo_graphics []).
Proof.
  split.
  - apply (legacy_invoke_never_rejects
             (mkWorld [] [demo_command] false demo_graphics [])
             failing_command). reflexivity.
  - apply (legacy_invoke_never_rejects
             (mkWorld [] [demo_command] true demo_graphics [])
             failing_command). reflexivity.
Defined.

(** ** More of Graphics: the registry of objects *)

Lemma add1_wf g o : wf g → o ∉ canvas_objects g → wf (Fabric.add1 g o).
Proof.
  intros [Hnd Hreg Hact Hcz] Hnotin.
  unfold Fabric.add1, Fabric._onObjectAdded.
  destruct (Fabric.isType _ o "cropzone") eqn:Hty; split; cbn.
  - apply NoDup_app; repeat split; [done| |apply NoDup_singleton].
    intros x Hx ->%list_elem_of_singleton. done.
  - intros x Hx. apply elem_of_app; left. by apply Hreg.
  - intros x Hx. apply elem_of_app; left. by apply Hact.
  - intros x Hx. by apply Hcz.
  - apply NoDup_app; repeat split; [done| |apply NoDup_singleton].
    intros x Hx ->%list_elem_of_singleton. done.
  - intros x [->%elem_of_singleton|Hx]%elem_of_union; apply elem_of_app;
      [right; by apply list_elem_of_singleton|left; by apply Hreg].
  - intros x Hx. apply elem_of_app; left. by apply Hact.
  - intros x [->%elem_of_singleton|Hx]%elem_of_union; [exact Hty|by apply Hcz].
Qed.

Lemma add_wf os g :
  wf g → NoDup os → (∀ o, o ∈ os → o ∉ canvas_objects g) →
  wf (Fabric.add os g).
Proof.
  revert g. induction os as [|o os IH]; intros g Hwf Hnd Hnew; [done|].
  apply NoDup_cons in Hnd as [Ho Hnd].
  change (wf (Fabric.add os (Fabric.add1 g o))). apply IH; [|done|].
  - apply add1_wf; [done|]. apply Hnew. by left.
  - intros x Hx. change (canvas_objects (Fabric.add1 g o))
      with (canvas_objects (Fabric.add [o] g)).
    rewrite canvas_add. intros [Hin| ->%list_elem_of_singleton]%elem_of_app.
    + by apply (Hnew x); [right|].
    + done.
Qed.



(** X9.  The methods of Graphics that put objects on the canvas and take
    them off keep the store well formed: no object twice on the canvas,
    every registered id on the canvas, the active object on the canvas, no
    crop zone registered.  For add() the objects must be new to the
    canvas. *)
Theorem graphics_keeps_wf (g : Graphics) :
  wf g →
  (∀ os, NoDup os → (∀ o, o ∈ os → o ∉ canvas_objects g) →
         wf (Graphics.add os g))
  ∧ (∀ o, wf (Graphics.remove o g))
  ∧ (∀ id, wf (Graphics.removeObjectById id g).2)
  ∧ (∀ includesBackground, wf (Graphics.removeAll includesBackground g).2).
Proof.
  intros Hwf. split; [|split; [|split]].
  - intros os Hnd Hnew. by apply add_wf.
  - intros o. by apply remove1_wf.
  - intros id. unfold Graphics.removeObjectById.
    destruct (Graphics.getObject g id) as [t|]; [|done].
    destruct (_ && _); [apply remove_wf, discardActiveGroup_wf, Hwf|].
    destruct (Fabric.contains g t); [by apply remove1_wf|done].
  - intros b. unfold Graphics.removeAll. cbn [snd].
    pose proof (remove_wf (canvas_objects g) g Hwf) as Hwf'.
    destruct b; [|done].
    pose proof (canvas_remove_all g) as Hc.
    destruct Hwf' as [Hnd Hreg Hact Hcz]. split; cbn.
    + apply NoDup_nil_2.
    + intros o Ho. apply Hreg in Ho. rewrite Hc in Ho. by apply elem_of_nil in Ho.
    + done.
    + done.
Qed.

Lemma graphics_keeps_wf_witness :
  wf (Graphics.add [3; 4] two_objects)
  ∧ wf (Graphics.removeObjectById (VNum 1) two_objects).2
  ∧ wf (Graphics.removeAll true two_objects).2.
Proof.
  destruct (graphics_keeps_wf two_objects two_objects_wf) as (Ha & _ & Hr & Hall).
  split; [|split; [apply Hr|apply Hall]].
  apply Ha.
  - apply (bool_decide_unpack _). reflexivity.
  - intros o Ho Hc. revert Ho. apply (bool_decide_unpack _).
    revert Hc. cbn. rewrite !elem_of_cons, elem_of_nil.
    intros [->| [->|[]]]; reflexivity.
Defined.

(** X10.  removeAll() returns the objects that were on the canvas and leaves
    the canvas empty; on a well-formed store nothing is registered and
    nothing is selected afterwards, so getObject answers undefined for every
    id, while the objects themselves and the image stay as they were. *)
Theorem removeAll_empties (g : Graphics) (includesBackground : bool) :
  wf g →
  let r := Graphics.removeAll includesBackground g in
  r.1 = canvas_objects g
  ∧ Graphics.getObjects r.2 = []
  ∧ _objects r.2 = ∅
  ∧ activeObject r.2 = None
  ∧ (∀ id, Graphics.getObject r.2 id = None)
  ∧ heap r.2 = heap g
  ∧ imageName r.2 = imageName g
  ∧ canvasImage r.2 = canvasImage g.
Proof.
  intros Hwf r.
  pose proof (remove_wf (canvas_objects g) g Hwf) as [Hnd Hreg Hact Hcz].
  pose proof (canvas_remove_all g) as Hc.
  pose proof (remove_frame (canvas_objects g) g) as (Hh & _ & _ & Hn & Hi & _).
  assert (Hempty : _objects (Fabric.remove (canvas_objects g) g) = ∅).
  { apply set_eq. intros o. split; [|set_solver].
    intros Ho%Hreg. rewrite Hc in Ho. by apply elem_of_nil in Ho. }
  assert (Hnone : activeObject (Fabric.remove (canvas_objects g) g) = None).
  { destruct (activeObject _) as [a|] eqn:Ha; [|done].
    specialize (Hact a eq_refl). rewrite Hc in Hact.
    by apply elem_of_nil in Hact. }
  subst r. unfold Graphics.removeAll, Graphics.getObjects. cbn [fst snd].
  split; [done|].
  assert (Hreg' : _objects (if includesBackground
                            then Fabric.clear (Fabric.remove (canvas_objects g) g)
                            else Fabric.remove (canvas_objects g) g) = ∅)
    by by destruct includesBackground.
  split; [by destruct includesBackground|]. split; [done|].
  split; [by destruct includesBackground|].
  split; [|by destruct includesBackground].
  intros [| |n| | | |]; try done. unfold Graphics.getObject.
  rewrite decide_False; [done|]. rewrite Hreg'. set_solver.
Qed.

Lemma removeAll_empties_witness :
  (Graphics.removeAll false two_objects).1 = [1; 2]
  ∧ Graphics.getObjects (Graphics.removeAll false two_objects).2 = []
  ∧ Graphics.getObject (Graphics.removeAll false two_objects).2 (VNum 1) = None.
Proof.
  destruct (removeAll_empties two_objects false two_objects_wf)
    as (H1 & H2 & _ & _ & H5 & _).
  split; [exact H1|]. split; [exact H2|apply H5].
Defined.

(** ** getObjectProperties *)

Lemma foldl_insert_lookup {V} (f : string → V) (keys : list string)
    (init : gmap string V) (k : string) :
  foldl (λ props value, <[value := f value]> props) init keys !! k
  = if bool_decide (k ∈ keys) then Some (f k) else init !! k.
Proof.
  induction keys as [|x keys IH] using rev_ind.
  - cbn. rewrite bool_decide_eq_false_2; [done|apply not_elem_of_nil].
  - rewrite foldl_app. cbn [foldl]. destruct (decide (x = k)) as [->|Hne].
    + rewrite lookup_insert_eq, bool_decide_eq_true_2; [done|].
      apply elem_of_app; right. by apply list_elem_of_singleton.
    + rewrite lookup_insert_ne, IH by done.
      destruct (decide (k ∈ keys)) as [Hin|Hnotin].
      * rewrite !bool_decide_eq_true_2; [done| |done].
        apply elem_of_app; by left.
      * rewrite !bool_decide_eq_false_2; [done| |done].
        intros [?| ->%list_elem_of_singleton]%elem_of_app; done.
Qed.



Lemma get_prop_set g n props key :
  is_Some (heap g !! n) →
  Graphics.get_prop (Graphics.setObjectProperties n props g) n key
  = default (Graphics.get_prop g n key) (props !! key).
Proof.
  intros [ob Hob]. unfold Graphics.get_prop, Graphics.setObjectProperties.
  cbn [heap Fabric.set_heap]. rewrite lookup_alter_eq, Hob. cbn.
  destruct (props !! key) as [v|] eqn:Hk.
  - by rewrite (lookup_union_Some_l _ _ _ _ Hk).
  - by rewrite lookup_union_r.
Qed.

Lemma get_prop_set_other g n m props key :
  m ≠ n →
  Graphics.get_prop (Graphics.setObjectProperties n props g) m key
  = Graphics.get_prop g m key.
Proof.
  intros Hne. unfold Graphics.get_prop, Graphics.setObjectProperties.
  cbn [heap Fabric.set_heap]. by rewrite lookup_alter_ne.
Qed.

(** X12.  What setObjectProperties(id, props) writes, getObjectProperties
    reads back: asked for the keys of [props] it answers [props] itself.
    Keys outside [props] and every other object keep their values, and the
    registry, the canvas and the selection are untouched.  The bag the
    setObjectProperties command saves for undo is what
    getObjectProperties(id, props) answered before the change. *)
Theorem setObjectProperties_then_get (g : Graphics) (n : ObjId)
    (props : gmap string PropValue) (ud : UndoData) :
  n ∈ _objects g → is_Some (heap g !! n) →
  let g' := Graphics.setObjectProperties n props g in
  getObjectProperties g' (VNum n) (KeyObject props) = Some props
  ∧ (∀ key, props !! key = None →
            Graphics.get_prop g' n key = Graphics.get_prop g n key)
  ∧ (∀ m key, m ≠ n → Graphics.get_prop g' m key = Graphics.get_prop g m key)
  ∧ canvas_objects g' = canvas_objects g
  ∧ _objects g' = _objects g
  ∧ activeObject g' = activeObject g
  ∧ res_undoData (command.setObjectProperties_execute
                    [VNum n; VProps props] ud g) !! "props"
    = VProps <$> getObjectProperties g (VNum n) (KeyObject props).
Proof.
  intros Hreg Hheap g'. subst g'.
  split; [|split; [|split; [|split; [|split; [|split]]]]]; try done.
  - unfold getObjectProperties, Graphics.getObject.
    cbn [_objects Graphics.setObjectProperties Fabric.set_heap].
    rewrite decide_True by done. f_equal. apply map_eq. intros k.
    rewrite map_lookup_imap. destruct (props !! k) as [v|] eqn:Hk; [|done].
    cbn. by rewrite get_prop_set, Hk.
  - intros key Hk. by rewrite get_prop_set, Hk.
  - intros m key Hne. by apply get_prop_set_other.
  - unfold command.setObjectProperties_execute, getObjectProperties.
    change (arg 0 [VNum n; VProps props]) with (VNum n).
    change (arg 1 [VNum n; VProps props]) with (VProps props).
    cbn [props_of]. unfold Graphics.getObject.
    rewrite decide_True by done. cbn [res_undoData].
    by rewrite lookup_insert_eq.
Qed.

Lemma setObjectProperties_then_get_witness :
  getObjectProperties
    (Graphics.setObjectProperties 1 {["fill" := PStr "blue"]} two_objects)
    (VNum 1) (KeyObject {["fill" := PStr "blue"]})
  = Some {["fill" := PStr "blue"]}.
Proof.
  apply (setObjectProperties_then_get two_objects 1 {["fill" := PStr "blue"]} ∅).
  - apply (bool_decide_unpack _). reflexivity.
  - exists (plain "rect"). reflexivity.
Defined.

(** ** More of the commands: what undo gives back *)

(** X13.  The add-object command of the factory, run on a store that does
    not hold the object yet: execute puts the object last on the canvas and
    resolves with it, a second execute rejects, and undo gives back exactly
    the store there was before.  Undo on a store without the object
    rejects. *)
Theorem addObject_undo_restores (g : Graphics) (object : ObjId)
    (ud : UndoData) :
  wf g → Fabric.contains g object = false →
  let c := factory.createAddObjectCommand object in
  let r1 := execute c (args c) ud g in
  let r2 := undo c (args c) (res_undoData r1) (res_graphics r1) in
  res_outcome r1 = Resolved (VObj object)
  ∧ canvas_objects (res_graphics r1) = canvas_objects g ++ [object]
  ∧ res_outcome (execute c (args c) (res_undoData r1) (res_graphics r1))
    = Rejected VUndefined
  ∧ res_outcome r2 = Resolved (VObj object)
  ∧ res_graphics r2 = g
  ∧ res_outcome (undo c (args c) ud g) = Rejected VUndefined.
Proof.
  intros Hwf Hnew c r1 r2. subst c r1 r2.
  cbn [factory.createAddObjectCommand newCommand execute undo args a_execute
       a_undo].
  rewrite Hnew. cbn [negb res_graphics res_undoData res_outcome].
  pose proof (contains_add1 g object) as Hadded.
  rewrite Hadded. cbn [negb res_graphics res_undoData res_outcome].
  split; [done|]. split.
  { change (Fabric.add1 g object) with (Fabric.add [object] g).
    apply canvas_add. }
  split; [done|]. split; [done|]. split; [|done].
  by apply add1_cancel.
Qed.

Lemma addObject_undo_restores_witness :
  let c := factory.createAddObjectCommand 3 in
  let r1 := execute c [] ∅ two_objects in
  let r2 := undo c [] (res_undoData r1) (res_graphics r1) in
  res_outcome r1 = Resolved (VObj 3)
  ∧ canvas_objects (res_graphics r1) = [1; 2; 3]
  ∧ res_graphics r2 = two_objects.
Proof.
  destruct (addObject_undo_restores two_objects 3 ∅ two_objects_wf eq_refl)
    as (H1 & H2 & _ & _ & H5 & _).
  split; [exact H1|]. split; [exact H2|exact H5].
Defined.

(** X14.  ImageLoader.load never touches the objects on the canvas.  When it
    resolves, the image name and the canvas image are the ones asked for and
    the canvas background is that same image; when it rejects, the image
    name and the canvas image are what they were.  It rejects exactly when
    there is no image although a name was given, or the image has no
    element. *)
Theorem load_outcome (name : string) (img : option FImage) (g : Graphics) :
  let r := ImageLoader.load name img g in
  canvas_objects r.1 = canvas_objects g
  ∧ heap r.1 = heap g
  ∧ _objects r.1 = _objects g
  ∧ activeObject r.1 = activeObject g
  ∧ match r.2 with
    | Resolved v =>
        imageName r.1 = name ∧ canvasImage r.1 = img
        ∧ backgroundImage r.1 = img
        ∧ v = match img with Some _ => VImage img | None => VUndefined end
        ∧ (img = None → name = "")
        ∧ (∀ i, img = Some i → img_element i = true)
    | Rejected reason =>
        imageName r.1 = imageName g ∧ canvasImage r.1 = canvasImage g
        ∧ reason = VUndefined
        ∧ match img with
          | Some i => img_element i = false ∧ backgroundImage r.1 = img
          | None => name ≠ "" ∧ backgroundImage r.1 = backgroundImage g
          end
    | Unsettled => False
    end.
Proof.
  unfold ImageLoader.load, ImageLoader._setBackgroundImage.
  destruct img as [i|].
  - rewrite (bool_decide_eq_false_2 (Some i = None)) by done.
    rewrite andb_false_r.
    destruct (img_element i) eqn:Hel; cbn; repeat split; try done.
    by intros ? [= <-].
  - destruct (decide (name = "")) as [->|Hne].
    + cbn. repeat split; done.
    + rewrite (bool_decide_eq_false_2 _ Hne). cbn. by repeat split.
Qed.

Lemma load_outcome_witness :
  let r := ImageLoader.load "photo" (Some (mkFImage "missing.png" false))
             two_objects in
  canvas_objects r.1 = [1; 2]
  ∧ imageName r.1 = ""
  ∧ canvasImage r.1 = None.
Proof.
  destruct (load_outcome "photo" (Some (mkFImage "missing.png" false))
              two_objects) as (H1 & _ & _ & _ & H5).
  destruct H5 as (Hname & Himage & _).
  split; [exact H1|]. split; [exact Hname|exact Himage].
Defined.

Lemma load_ok name i g :
  img_element i = true →
  ImageLoader.load name (Some i) g
  = (Graphics.setCanvasImage name (Some i)
       (Fabric.set_backgroundImage (Some i) g),
     Resolved (VImage (Some i))).
Proof.
  intros Hel. unfold ImageLoader.load, ImageLoader._setBackgroundImage.
  rewrite (bool_decide_eq_false_2 (Some i = None)) by done.
  by rewrite andb_false_r, Hel.
Qed.

(** X15.  The load-image command of the factory, given an image that loads:
    execute empties the canvas, resolves with the image and makes it the
    canvas image under the given name.  Undo then puts the objects back on
    the canvas in their order and restores the image name and the canvas
    image there were before, provided the earlier image still loads (or
    there was none and no name).  The selection is not restored. *)
Theorem loadImage_undo_restores (g : Graphics) (name : string) (i : FImage)
    (ud : UndoData) :
  (canvasImage g = None → imageName g = "") →
  (∀ p, canvasImage g = Some p → img_element p = true) →
  img_element i = true →
  let c := factory.createLoadImageCommand name (Some i) in
  let r1 := execute c (args c) ud g in
  let r2 := undo c (args c) (res_undoData r1) (res_graphics r1) in
  res_outcome r1 = Resolved (VImage (Some i))
  ∧ canvas_objects (res_graphics r1) = []
  ∧ imageName (res_graphics r1) = name
  ∧ canvasImage (res_graphics r1) = Some i
  ∧ (∃ v, res_outcome r2 = Resolved v)
  ∧ canvas_objects (res_graphics r2) = canvas_objects g
  ∧ imageName (res_graphics r2) = imageName g
  ∧ canvasImage (res_graphics r2) = canvasImage g
  ∧ backgroundImage (res_graphics r2) = canvasImage g
  ∧ activeObject (res_graphics r2) = None.
Proof.
  intros Hnone Hsome Hel c r1 r2. subst c r1 r2.
  cbn [factory.createLoadImageCommand newCommand execute undo args a_execute
       a_undo].
  rewrite (load_ok name i _ Hel).
  cbn [res_graphics res_undoData res_outcome].
  rewrite lookup_insert_eq.
  rewrite lookup_insert_ne, lookup_insert_eq by done.
  rewrite !lookup_insert_ne, lookup_insert_eq by done.
  cbn [default from_option id list_of str_of image_of].
  repeat (split; [done|]).
  set (g2 := Fabric.add (canvas_objects g) (Fabric.clear _)).
  assert (Hc : canvas_objects g2 = canvas_objects g)
    by (subst g2; by rewrite canvas_add).
  assert (Ha : activeObject g2 = None)
    by (subst g2; by rewrite add_activeObject).
  destruct (canvasImage g) as [p|] eqn:Hp.
  - rewrite (load_ok (imageName g) p g2 (Hsome p eq_refl)).
    cbn [res_graphics res_outcome]. split; [eauto|]. by repeat split.
  - rewrite (Hnone eq_refl). unfold ImageLoader.load.
    rewrite !bool_decide_eq_true_2 by done.
    cbn [andb res_graphics res_outcome]. split; [eauto|]. by repeat split.
Qed.

Lemma loadImage_undo_restores_witness :
  let c := factory.createLoadImageCommand "photo" (Some sample_image) in
  let r1 := execute c [] ∅ two_objects in
  let r2 := undo c [] (res_undoData r1) (res_graphics r1) in
  res_outcome r1 = Resolved (VImage (Some sample_image))
  ∧ canvas_objects (res_graphics r1) = []
  ∧ canvas_objects (res_graphics r2) = [1; 2]
  ∧ imageName (res_graphics r2) = ""
  ∧ canvasImage (res_graphics r2) = None.
Proof.
  destruct (loadImage_undo_restores two_objects "photo" sample_image ∅)
    as (H1 & H2 & _ & _ & _ & H6 & H7 & H8 & _).
  - reflexivity.
  - intros p Hp. discriminate Hp.
  - reflexivity.
  - split; [exact H1|]. split; [exact H2|]. split; [exact H6|].
    split; [exact H7|exact H8].
Defined.

Lemma in_remove_first_Permutation o l :
  o ∈ l → l ≡ₚ o :: Fabric.remove_first o l.
Proof.
  induction l as [|x l IH]; [by intros ?%elem_of_nil|].
  intros Hin. cbn. destruct (decide (x = o)) as [->|Hne]; [done|].
  apply elem_of_cons in Hin as [->|Hin]; [done|].
  rewrite (IH Hin) at 1. apply Permutation_swap.
Qed.

(** X16.  The remove-object command on a single object (one that is not a
    group with members): execute takes the object off the canvas and out of
    the registry; undo puts it back, registered under the same id, as the
    last object on the canvas.  The canvas after the undo holds the same
    objects as before the command, the removed one moved to the end. *)
Theorem removeObject_single_undo (g : Graphics) (n : ObjId) (ud : UndoData) :
  wf g → n ∈ _objects g →
  Fabric.isType g n "group" && negb (Fabric.isEmpty g n) = false →
  let r1 := command.removeObject_execute [VNum n] ud g in
  let r2 := command.removeObject_undo [VNum n] (res_undoData r1)
              (res_graphics r1) in
  res_outcome r1 = Resolved VUndefined
  ∧ canvas_objects (res_graphics r1)
    = Fabric.remove_first n (canvas_objects g)
  ∧ Graphics.getObject (res_graphics r1) (VNum n) = None
  ∧ res_outcome r2 = Resolved VUndefined
  ∧ canvas_objects (res_graphics r2)
    = Fabric.remove_first n (canvas_objects g) ++ [n]
  ∧ canvas_objects (res_graphics r2) ≡ₚ canvas_objects g
  ∧ _objects (res_graphics r2) = _objects g
  ∧ heap (res_graphics r2) = heap g.
Proof.
  intros Hwf Hreg Hsingle r1 r2. subst r1 r2.
  pose proof (wf_registered g Hwf n Hreg) as Hin.
  assert (Hrm : Graphics.removeObjectById (VNum n) g
                = ([n], Fabric.remove1 g n)).
  { unfold Graphics.removeObjectById, Graphics.getObject.
    rewrite decide_True by done. rewrite Hsingle.
    unfold Fabric.contains. by rewrite bool_decide_eq_true_2. }
  unfold command.removeObject_execute.
  change (arg 0 [VNum n]) with (VNum n). rewrite Hrm. cbn [length].
  rewrite bool_decide_eq_false_2 by done.
  cbn [res_graphics res_undoData res_outcome].
  unfold command.removeObject_undo. rewrite lookup_insert_eq.
  cbn [res_graphics res_undoData res_outcome].
  pose proof (canvas_remove1 g n) as Hc1.
  assert (Hc2 : canvas_objects (Graphics.add [n] (Fabric.remove1 g n))
                = Fabric.remove_first n (canvas_objects g) ++ [n]).
  { unfold Graphics.add. by rewrite canvas_add, Hc1. }
  split; [done|]. split; [done|]. split.
  { unfold Graphics.getObject. rewrite decide_False; [done|].
    destruct (remove_clean [n] g n Hwf) as (_ & H & _); [by left|done]. }
  split; [done|]. split; [done|]. split.
  { rewrite Hc2. rewrite (in_remove_first_Permutation n (canvas_objects g) Hin) at 2.
    by rewrite Permutation_app_comm. }
  split.
  - apply set_eq. intros x. split.
    + intros Hx. apply (add_registry [n]) in Hx.
      apply elem_of_union in Hx as [Hx|Hx].
      * unfold Fabric.remove1, Fabric.contains in Hx.
        rewrite bool_decide_eq_true_2 in Hx by done.
        unfold Fabric._onObjectRemoved, Fabric._removeFabricObject in Hx.
        cbn [_objects Fabric.set_objects] in Hx.
        apply elem_of_difference in Hx as [Hx _].
        by destruct (decide _) in Hx.
      * set_solver.
    + intros Hx. destruct (decide (x = n)) as [->|Hne].
      * apply (add_registers [n]); [by left|].
        rewrite (isType_frame g); [by apply (wf_cropzone g Hwf)|].
        apply (remove1_frame g n).
      * apply (add_registry [n]).
        apply (remove_registry_keeps [n] g x); [|done].
        by intros ->%list_elem_of_singleton.
  - transitivity (heap (Fabric.remove1 g n)).
    + apply (add_frame [n]).
    + apply (remove1_frame g n).
Qed.

Lemma removeObject_single_undo_witness :
  let r1 := command.removeObject_execute [VNum 1] ∅ two_objects in
  let r2 := command.removeObject_undo [VNum 1] (res_undoData r1)
              (res_graphics r1) in
  canvas_objects (res_graphics r1) = [2]
  ∧ canvas_objects (res_graphics r2) = [2; 1].
Proof.
  destruct (removeObject_single_undo two_objects 1 ∅ two_objects_wf)
    as (_ & H2 & _ & _ & H5 & _).
  - apply (bool_decide_unpack _). reflexivity.
  - reflexivity.
  - split; [exact H2|exact H5].
Defined.

(** X17.  The set-object-properties command followed by its undo gives every
    property of every object the value it had: the undo writes back, key by
    key, what execute read before it overwrote.  A key the object did not
    have reads undefined before and after.  Canvas, registry and selection
    are not touched by either action. *)
Theorem setObjectProperties_undo_restores (g : Graphics) (n : ObjId)
    (props : gmap string PropValue) (ud : UndoData) :
  n ∈ _objects g →
  let xs := [VNum n; VProps props] in
  let r1 := command.setObjectProperties_execute xs ud g in
  let r2 := command.setObjectProperties_undo xs (res_undoData r1)
              (res_graphics r1) in
  res_outcome r1 = Resolved VUndefined
  ∧ res_outcome r2 = Resolved VUndefined
  ∧ (∀ object key, Graphics.get_prop (res_graphics r2) object key
                   = Graphics.get_prop g object key)
  ∧ canvas_objects (res_graphics r2) = canvas_objects g
  ∧ _objects (res_graphics r2) = _objects g
  ∧ activeObject (res_graphics r2) = activeObject g.
Proof.
  intros Hreg xs r1 r2. subst xs r1 r2.
  unfold command.setObjectProperties_execute, command.setObjectProperties_undo.
  change (arg 0 [VNum n; VProps props]) with (VNum n).
  change (arg 1 [VNum n; VProps props]) with (VProps props).
  cbn [props_of].
  assert (Hget : ∀ p g', _objects g' = _objects g →
            Graphics.getObject (Graphics.setObjectProperties n p g') (VNum n)
            = Some n).
  { intros p g' Hg'. apply getObject_Some. split; [done|]. cbn. by rewrite Hg'. }
  assert (Hget0 : Graphics.getObject g (VNum n) = Some n)
    by by apply getObject_Some.
  rewrite Hget0. cbn [res_graphics res_undoData res_outcome].
  rewrite Hget by done. cbn [res_graphics res_undoData res_outcome].
  rewrite lookup_insert_eq. cbn [default from_option id props_of].
  split; [done|]. split; [done|]. split; [|done].
  intros object key. destruct (decide (object = n)) as [->|Hne].
  - destruct (heap g !! n) as [ob|] eqn:Hob.
    + rewrite get_prop_set.
      2:{ cbn [heap Graphics.setObjectProperties Fabric.set_heap].
          rewrite lookup_alter_eq, Hob. by eexists. }
      rewrite map_lookup_imap.
      destruct (props !! key) as [v|] eqn:Hk; cbn; [done|].
      rewrite get_prop_set by (by eexists). by rewrite Hk.
    + unfold Graphics.get_prop, Graphics.setObjectProperties.
      cbn [heap Fabric.set_heap]. by rewrite !lookup_alter_eq, Hob.
  - by rewrite !get_prop_set_other.
Qed.

Lemma setObjectProperties_undo_restores_witness :
  let xs := [VNum 1; VProps {["fill" := PStr "blue"]}] in
  let r1 := command.setObjectProperties_execute xs ∅ two_objects in
  let r2 := command.setObjectProperties_undo xs (res_undoData r1)
              (res_graphics r1) in
  Graphics.get_prop (res_graphics r1) 1 "fill" = PStr "blue"
  ∧ Graphics.get_prop (res_graphics r2) 1 "fill" = PUndefined.
Proof.
  split; [reflexivity|].
  destruct (setObjectProperties_undo_restores two_objects 1
              {["fill" := PStr "blue"]} ∅) as (_ & _ & H & _).
  - apply (bool_decide_unpack _). reflexivity.
  - exact (H 1 "fill").
Defined.

Lemma createObjectProperties_id g o :
  Graphics.createObjectProperties g o !! "id" = Some (PNum (Z.of_nat o)).
Proof.
  unfold Graphics.createObjectProperties. cbn [foldl].
  rewrite !lookup_insert_ne by done. by rewrite lookup_insert_eq.
Qed.

(** X18.  The add-image-object command, on a store with a canvas image
    whose ids are all below the stamp counter: execute creates an image
    object under the next id, puts it last on the canvas, registers and
    selects it, resolves with properties that carry this id, and keeps the
    object for undo.  Undo takes it off the canvas and out of the registry
    again, so that canvas and registry are what they were; the selection is
    dropped and the id is not given out again. *)
Theorem addImageObject_fresh (g : Graphics) (imgUrl : string) (ud : UndoData) :
  wf g →
  is_Some (canvasImage g) →
  (∀ o, o ∈ canvas_objects g → (o ≤ lastId g)%nat) →
  let id := S (lastId g) in
  let r1 := command.addImageObject_execute [VStr imgUrl] ud g in
  let r2 := command.addImageObject_undo [VStr imgUrl] (res_undoData r1)
              (res_graphics r1) in
  (∃ objectProps, res_outcome r1 = Resolved (VProps objectProps)
                  ∧ objectProps !! "id" = Some (PNum (Z.of_nat id)))
  ∧ canvas_objects (res_graphics r1) = canvas_objects g ++ [id]
  ∧ Graphics.getObject (res_graphics r1) (VNum id) = Some id
  ∧ activeObject (res_graphics r1) = Some id
  ∧ Fabric.isType (res_graphics r1) id "image" = true
  ∧ res_undoData r1 !! "object" = Some (VObj id)
  ∧ res_outcome r2 = Resolved VUndefined
  ∧ canvas_objects (res_graphics r2) = canvas_objects g
  ∧ _objects (res_graphics r2) = _objects g
  ∧ activeObject (res_graphics r2) = None
  ∧ lastId (res_graphics r2) = id.
Proof.
  intros Hwf [img Himg] Hbound id r1 r2. subst r1 r2.
  assert (Hfresh : id ∉ canvas_objects g).
  { intros Hin%Hbound. subst id. lia. }
  assert (Hunreg : id ∉ _objects g).
  { intros Hin. by apply Hfresh, (wf_registered g Hwf). }
  unfold command.addImageObject_execute, Graphics.addImageObject.
  change (arg 0 [VStr imgUrl]) with (VStr imgUrl). cbn [str_of].
  rewrite Himg. fold id.
  set (image := mkFabricObject "image" [] _).
  set (g1 := mkGraphics (<[id := image]> (heap g)) _ _ _ _ _ _ _ id).
  assert (Hadd : Fabric.add1 g1 id
                 = Fabric.set_objects ({[id]} ∪ _objects g)
                     (Fabric.set_canvas_objects (canvas_objects g ++ [id]) g1)).
  { unfold Fabric.add1, Fabric._onObjectAdded, Fabric.isType.
    cbn [heap Fabric.set_canvas_objects g1]. rewrite lookup_insert_eq.
    cbn [otype image]. by rewrite bool_decide_eq_false_2. }
  rewrite Hadd.
  set (g2 := Fabric.set_activeObject _ _).
  rewrite createObjectProperties_id, Nat2Z.id.
  assert (Hget : Graphics.getObject g2 (VNum id) = Some id).
  { apply getObject_Some. split; [done|]. cbn. set_solver. }
  rewrite Hget. cbn [res_graphics res_undoData res_outcome].
  unfold command.addImageObject_undo. rewrite lookup_insert_eq.
  cbn [res_graphics res_undoData res_outcome].
  split; [eexists; split; [done|apply createObjectProperties_id]|].
  split; [done|]. split; [done|]. split; [done|]. split.
  { unfold Fabric.isType. cbn [heap g2 g1 Fabric.set_activeObject
      Fabric.set_objects Fabric.set_canvas_objects].
    by rewrite lookup_insert_eq. }
  split; [done|]. split; [done|].
  unfold Graphics.remove, Fabric.remove1, Fabric.contains.
  cbn [canvas_objects g2 Fabric.set_activeObject Fabric.set_objects
       Fabric.set_canvas_objects].
  rewrite bool_decide_eq_true_2
    by (apply elem_of_app; right; by apply list_elem_of_singleton).
  cbn [activeObject]. rewrite decide_True by done.
  cbn. rewrite remove_first_app_r, app_nil_r by done.
  split; [done|]. split; [|done]. set_solver.
Qed.

Lemma addImageObject_fresh_witness :
  let r1 := command.addImageObject_execute [VStr "star.png"] ∅ image_graphics in
  let r2 := command.addImageObject_undo [VStr "star.png"] (res_undoData r1)
              (res_graphics r1) in
  canvas_objects (res_graphics r1) = [1]
  ∧ Graphics.getObject (res_graphics r1) (VNum 1) = Some 1
  ∧ canvas_objects (res_graphics r2) = []
  ∧ lastId (res_graphics r2) = 1.
Proof.
  destruct (addImageObject_fresh image_graphics "star.png" ∅)
    as (_ & H2 & H3 & _ & _ & _ & _ & H8 & _ & _ & H11).
  - split; cbn.
    + apply NoDup_nil_2.
    + intros o Ho. exfalso. revert Ho. apply not_elem_of_empty.
    + discriminate.
    + intros o Ho. exfalso. revert Ho. apply not_elem_of_empty.
  - exists sample_image. reflexivity.
  - intros o Ho. exfalso. revert Ho. apply not_elem_of_nil.
  - split; [exact H2|]. split; [exact H3|]. split; [exact H8|exact H11].
Defined.

(** ** Drawing modes *)

Lemma bracketed_snoc (log : list ModeCall) (current : option string)
    (e : ModeCall) :
  bracketed current log = true →
  let open := match last log with
              | None => current
              | Some (started m) => Some m
              | Some (ended _) => None
              end in
  match e with
  | started _ => open = None
  | ended m => open = Some m
  end →
  bracketed current (log ++ [e]) = true.
Proof.
  revert current. induction log as [|x log IH]; intros current Hb open He.
  - subst open. cbn in *. destruct e; subst current; cbn; [done|].
    by rewrite bool_decide_eq_true_2.
  - cbn [app bracketed] in *. subst open. rewrite last_cons in He.
    destruct x as [m|m], current as [c|]; try done.
    + apply IH; [done|]. by destruct (last log).
    + apply andb_true_iff in Hb as [Hm Hb]. rewrite Hm. cbn [andb].
      apply IH; [done|]. by destruct (last log).
Qed.

Lemma stopDrawingMode_normal s :
  DrawingModes.getDrawingMode (DrawingModes.stopDrawingMode s)
  = DrawingModes.NORMAL.
Proof.
  unfold DrawingModes.stopDrawingMode, DrawingModes._isSameDrawingMode.
  by case_bool_decide.
Qed.

Section Mode_trace.

Variable map : gmap string DrawingMode.
Hypothesis NORMAL_unregistered : map !! DrawingModes.NORMAL = None.
Hypothesis all_end : ∀ mode i, map !! mode = Some i → ends i = true.

Lemma stop_agrees s :
  agrees map s → agrees map (DrawingModes.stopDrawingMode s).
Proof.
  intros Hs.
  unfold DrawingModes.stopDrawingMode, DrawingModes._isSameDrawingMode,
    DrawingModes._getDrawingModeInstance, DrawingModes.getDrawingMode.
  case_bool_decide as Hmode; [exact Hs|].
  destruct Hs as (Hmap & Hb & Hlast).
  rewrite bool_decide_eq_false_2 in Hlast by done.
  destruct Hlast as [Hlast [i Hi]]. rewrite Hmap, Hi, (all_end _ _ Hi).
  split; [done|]. cbn [mode_calls _drawingMode]. split.
  - apply bracketed_snoc; [done|]. by rewrite Hlast.
  - rewrite bool_decide_eq_true_2 by done. by rewrite last_snoc.
Qed.

Lemma request_agrees s r : agrees map s → agrees map (request s r).
Proof.
  intros Hs. destruct r as [mode|]; [|by apply stop_agrees].
  cbn [request]. unfold DrawingModes.startDrawingMode,
    DrawingModes._isSameDrawingMode, DrawingModes._getDrawingModeInstance.
  case_bool_decide as Hsame; [exact Hs|].
  pose proof (stop_agrees s Hs) as (Hmap & Hb & Hlast).
  pose proof (stopDrawingMode_normal s) as Hnormal.
  unfold DrawingModes.getDrawingMode in Hnormal.
  rewrite Hnormal, bool_decide_eq_true_2 in Hlast by done.
  rewrite Hmap. destruct (map !! mode) as [i|] eqn:Hi; cbn [snd].
  - split; [done|]. cbn [mode_calls _drawingMode]. split.
    + apply bracketed_snoc; [done|].
      by destruct (last (mode_calls (DrawingModes.stopDrawingMode s)))
        as [[?|?]|].
    + rewrite bool_decide_eq_false_2 by congruence.
      by rewrite last_snoc, Hi.
  - split; [done|]. split; [done|].
    by rewrite Hnormal, bool_decide_eq_true_2.
Qed.

Lemma run_agrees requests :
  agrees map (foldl request (DrawingModes.new map) requests).
Proof.
  induction requests as [|r requests IH] using rev_ind.
  - by repeat split.
  - rewrite foldl_app. by apply request_agrees.
Qed.

End Mode_trace.

(** X19.  Whatever sequence of startDrawingMode and stopDrawingMode calls
    an editor has seen since it was built, its drawing mode is NORMAL or a
    registered mode, and it is the mode the calls made on the mode
    instances leave open: [start] and [end] alternate, each [end] closing
    the mode started last, and the current mode is the one started and not
    yet ended (NORMAL when there is none).  This needs every registered
    class to define [end], and no instance to be registered as NORMAL. *)
Theorem drawing_modes_alternate (map : gmap string DrawingMode)
    (requests : list ModeRequest) :
  map !! DrawingModes.NORMAL = None →
  (∀ mode i, map !! mode = Some i → ends i = true) →
  let s := foldl request (DrawingModes.new map) requests in
  (DrawingModes.getDrawingMode s = DrawingModes.NORMAL
   ∨ is_Some (map !! DrawingModes.getDrawingMode s))
  ∧ open_mode (mode_calls s) = DrawingModes.getDrawingMode s
  ∧ bracketed None (mode_calls s) = true.
Proof.
  intros Hnormal Hends s.
  destruct (run_agrees map Hnormal Hends requests) as (_ & Hb & Hlast).
  fold s in Hb, Hlast.
  unfold DrawingModes.getDrawingMode, open_mode.
  destruct (decide (_drawingMode s = DrawingModes.NORMAL)) as [Hmode|Hmode].
  - rewrite bool_decide_eq_true_2 in Hlast by done.
    split; [by left|]. split; [|done]. rewrite Hmode.
    by destruct (last (mode_calls s)) as [[?|?]|].
  - rewrite bool_decide_eq_false_2 in Hlast by done.
    destruct Hlast as [Hlast Hreg]. split; [by right|]. split; [|done].
    by rewrite Hlast.
Qed.

Lemma drawing_modes_alternate_witness :
  let s := foldl request (DrawingModes.new shape_and_text)
                 [requestStart "SHAPE"; requestStart "TEXT";
                  requestStart "CROPPER"; requestStart "SHAPE"] in
  open_mode (mode_calls s) = DrawingModes.getDrawingMode s
  ∧ bracketed None (mode_calls s) = true.
Proof.
  destruct (drawing_modes_alternate shape_and_text
              [requestStart "SHAPE"; requestStart "TEXT";
               requestStart "CROPPER"; requestStart "SHAPE"])
    as (_ & H2 & H3).
  - reflexivity.
  - intros mode i Hi. apply elem_of_list_to_map_2 in Hi.
    apply elem_of_cons in Hi as [[= _ ->]|Hi]; [reflexivity|].
    apply elem_of_cons in Hi as [[= _ ->]|Hi]; [reflexivity|].
    by apply elem_of_nil in Hi.
  - split; [exact H2|exact H3].
Defined.

(** X20.  startDrawingMode(mode) answers true exactly when the editor is in
    that mode already or an instance is registered for it, and then the
    editor is in that mode.  When it answers false the editor is in NORMAL
    mode: the mode it was in has been stopped all the same.  Asking for the
    current mode changes nothing, not even the log of calls. *)
Theorem startDrawingMode_result (s : Modes) (mode : string) :
  let r := DrawingModes.startDrawingMode mode s in
  (r.1 = true ↔ DrawingModes.getDrawingMode s = mode
                ∨ is_Some (_drawingModeMap s !! mode))
  ∧ DrawingModes.getDrawingMode r.2
    = (if r.1 then mode else DrawingModes.NORMAL)
  ∧ _drawingModeMap r.2 = _drawingModeMap s
  ∧ (DrawingModes.getDrawingMode s = mode → r.2 = s)
  ∧ (r.1 = false → r.2 = DrawingModes.stopDrawingMode s).
Proof.
  assert (Hmap : _drawingModeMap (DrawingModes.stopDrawingMode s)
                 = _drawingModeMap s).
  { unfold DrawingModes.stopDrawingMode. by destruct (_ s DrawingModes.NORMAL). }
  unfold DrawingModes.startDrawingMode, DrawingModes._isSameDrawingMode,
    DrawingModes._getDrawingModeInstance.
  case_bool_decide as Hsame; cbn [fst snd].
  - repeat split; try done. by left.
  - rewrite Hmap. destruct (_drawingModeMap s !! mode) as [i|] eqn:Hi;
      cbn [fst snd].
    + repeat split; try done. by right.
    + repeat split; try done.
      * by intros [?|[? ?]].
      * apply stopDrawingMode_normal.
Qed.

Lemma startDrawingMode_result_witness :
  let s := (DrawingModes.startDrawingMode "SHAPE"
              (DrawingModes.new shape_and_text)).2 in
  (DrawingModes.startDrawingMode "NORMAL" s).1 = false
  ∧ DrawingModes.getDrawingMode (DrawingModes.startDrawingMode "NORMAL" s).2
    = DrawingModes.NORMAL.
Proof.
  intros s.
  destruct (startDrawingMode_result s "NORMAL") as (H1 & H2 & _).
  assert (Hf : (DrawingModes.startDrawingMode "NORMAL" s).1 = false)
    by reflexivity.
  split; [exact Hf|]. rewrite H2, Hf. reflexivity.
Defined.

(** ** util.js *)

(** X21.  clamp(value, minValue, maxValue) answers a number between the two
    bounds, whichever of them is the larger: the value itself when it lies
    between them, else the bound it is beyond.  The order of the two bounds
    does not matter, and clamping twice changes nothing more. *)
Theorem clamp_bounds (value a b : Z) :
  let r := util.clamp value a b in
  (Z.min a b ≤ r ≤ Z.max a b)%Z
  ∧ ((Z.min a b ≤ value ≤ Z.max a b)%Z → r = value)
  ∧ ((value < Z.min a b)%Z → r = Z.min a b)
  ∧ ((Z.max a b < value)%Z → r = Z.max a b)
  ∧ util.clamp value b a = r
  ∧ util.clamp r a b = r.
Proof.
  unfold util.clamp.
  destruct (a >? b)%Z eqn:Hab, (b >? a)%Z eqn:Hba;
    repeat match goal with
           | |- context [(?x >? ?y)%Z] => destruct (x >? y)%Z eqn:?
           end; lia.
Qed.

Lemma clamp_bounds_witness :
  util.clamp 15 10 0 = 10%Z ∧ util.clamp 5 10 0 = 5%Z.
Proof.
  destruct (clamp_bounds 15 10 0) as (_ & _ & _ & Habove & _).
  destruct (clamp_bounds 5 10 0) as (_ & Hwithin & _).
  split.
  - apply Habove. reflexivity.
  - apply Hwithin. split; discriminate.
Defined.

(** X22.  keyMirror(...args) maps every argument to itself and holds no
    other key, however often an argument is repeated; so each drawing mode
    of consts.drawingModes is named by its own key. *)
Theorem keyMirror_mirrors (keys : list string) (k v : string) :
  util.keyMirror keys !! k = Some v ↔ k ∈ keys ∧ v = k.
Proof.
  unfold util.keyMirror.
  rewrite (foldl_insert_lookup (λ key, key)), lookup_empty.
  case_bool_decide; split; [intros [= <-]|intros [_ ->]|done|intros [? _]];
    done.
Qed.

Lemma keyMirror_mirrors_witness :
  drawingModes !! "NORMAL" = Some DrawingModes.NORMAL.
Proof.
  apply (keyMirror_mirrors _ "NORMAL" DrawingModes.NORMAL).
  split; [|reflexivity]. apply (bool_decide_unpack _). reflexivity.
Defined.
